(** * ExpiringMap: a key-value container whose entries expire after a TTL

    Shallow embedding of [src/ExpiringMap.ts].

    - The private [#store] (a JavaScript [Map]) is an association list in
      insertion order.  [Map.prototype.set] overwrites the value of a key that
      is present without moving it and appends a key that is absent;
      [Map.prototype.delete] removes the entry of the key.
    - [Date.now()] is the field [clock] of the state, in milliseconds.
    - The host's timer queue ([setTimeout] / [clearTimeout]) is the list
      [timers] of pending timers; a handle is a positive number.  The closure
      passed to [setTimeout] by [set] captures the key only, so a pending timer
      is its handle, the time it is due and that key.
    - The optional [onExpire] callback is an observer, which neither changes
      the map nor throws: the state records whether one was supplied, and
      every invocation is appended to [calls] together with the content of the
      store at the moment of the call.  The methods that call a callback are
      embedded a second time, at the end of the model, for callbacks that
      throw.
    - Numbers are integers: times and durations are in [Z]; the delays given
      to [setTimeout] are those the host waits for as given, from 1 ms to
      2^31 - 1 ms. *)

From Stdlib Require Import ZArith Lia.
From stdpp Require Import base list strings.

Module ExpiringMap.

Section Model.

Context {K V : Type} `{EqDecision K}.

(** ** Data *)

(** [interface Entry<V>]; [timeout] is absent under lazy eviction. *)
Record Entry := mkEntry {
  value : V;
  expiresAt : Z;
  timeout : option nat;
}.

(** [interface ExpiringMapOptions<K, V>]. *)
Record ExpiringMapOptions := mkOptions {
  defaultTtlMs : Z;
  lazyEviction : option bool;
  onExpire : bool;
}.

(** A pending [setTimeout] of [set]. *)
Record Timer := mkTimer {
  handle : nat;
  due : Z;
  target : K;
}.

(** The content of [#store], oldest insertion first. *)
Local Abbreviation Store := (list (K * Entry)).

(** One invocation of [onExpire(key, value)], with the store it could see. *)
Record Call := mkCall {
  call_key : K;
  call_value : V;
  call_seen : Store;
}.

(** The private fields of the class, and the host state the methods use. *)
Record State := mkState {
  m_defaultTtlMs : Z;
  m_lazyEviction : bool;
  m_onExpire : bool;
  m_store : Store;
  clock : Z;
  timers : list Timer;
  nextTimeout : nat;
  calls : list Call;
}.

Definition with_store (st : Store) (s : State) : State :=
  mkState (m_defaultTtlMs s) (m_lazyEviction s) (m_onExpire s) st
          (clock s) (timers s) (nextTimeout s) (calls s).

Definition with_timers (tms : list Timer) (s : State) : State :=
  mkState (m_defaultTtlMs s) (m_lazyEviction s) (m_onExpire s) (m_store s)
          (clock s) tms (nextTimeout s) (calls s).

Definition with_clock (t : Z) (s : State) : State :=
  mkState (m_defaultTtlMs s) (m_lazyEviction s) (m_onExpire s) (m_store s)
          t (timers s) (nextTimeout s) (calls s).

Definition with_calls (cs : list Call) (s : State) : State :=
  mkState (m_defaultTtlMs s) (m_lazyEviction s) (m_onExpire s) (m_store s)
          (clock s) (timers s) (nextTimeout s) cs.

(** ** The underlying [Map] *)

Fixpoint store_get (key : K) (st : Store) : option Entry :=
  match st with
  | [] => None
  | (k, e) :: st' => if decide (k = key) then Some e else store_get key st'
  end.

Fixpoint store_set (key : K) (entry : Entry) (st : Store) : Store :=
  match st with
  | [] => [(key, entry)]
  | (k, e) :: st' =>
      if decide (k = key) then (k, entry) :: st'
      else (k, e) :: store_set key entry st'
  end.

Definition store_has (key : K) (st : Store) : bool :=
  bool_decide (is_Some (store_get key st)).

(** Keys are unique in a [Map] (see [wf] below), so removing the entry of
    [key] is keeping the entries of the other keys. *)
Definition store_delete (key : K) (st : Store) : Store :=
  filter (λ p, p.1 ≠ key) st.

Definition store_keys (st : Store) : list K := st.*1.

(** ** The host: timers and callback *)

(** [setTimeout(closure, delay)] for a delay between 1 ms and 2^31 - 1 ms,
    the range in which the host waits for the delay it is given (outside of
    it the host waits 1 ms). *)
Definition setTimeout (key : K) (delay : Z) (s : State) : nat * State :=
  let h := nextTimeout s in
  (h, mkState (m_defaultTtlMs s) (m_lazyEviction s) (m_onExpire s) (m_store s)
        (clock s) (timers s ++ [mkTimer h (clock s + delay) key]) (S h)
        (calls s)).

Definition clearTimeout (h : nat) (s : State) : State :=
  with_timers (filter (λ tm, handle tm ≠ h) (timers s)) s.

(** [if (this.#onExpire) { this.#onExpire(key, value); }] *)
Definition notify (key : K) (v : V) (s : State) : State :=
  if m_onExpire s
  then with_calls (calls s ++ [mkCall key v (m_store s)]) s
  else s.

(** ** The class *)

Inductive Outcome (A : Type) :=
  | Threw (message : string)
  | Returned (a : A).
Global Arguments Threw {A} message.
Global Arguments Returned {A} a.

(** [constructor(options)], called at time [now] with a fresh host. *)
Definition new (options : ExpiringMapOptions) (now : Z) : Outcome State :=
  if decide (defaultTtlMs options ≤ 0)%Z
  then Threw "TTL must be greater than 0"
  else Returned (mkState (defaultTtlMs options)
                         (default false (lazyEviction options))
                         (onExpire options) [] now [] 1 []).

Definition isExpired (entry : Entry) (s : State) : bool :=
  bool_decide (expiresAt entry ≤ clock s)%Z.

Definition delete (key : K) (s : State) : bool * State :=
  let s1 :=
    match store_get key (m_store s) with
    | Some entry =>
        match timeout entry with
        | Some h => clearTimeout h s
        | None => s
        end
    | None => s
    end in
  (store_has key (m_store s1), with_store (store_delete key (m_store s1)) s1).

(** The closure that [set] hands to [setTimeout]. *)
Definition evict (key : K) (s : State) : State :=
  match store_get key (m_store s) with
  | Some entry =>
      notify key (value entry) (with_store (store_delete key (m_store s)) s)
  | None => s
  end.

Definition set (key : K) (v : V) (ttlMs : option Z) (s : State) : State :=
  let ttl := default (m_defaultTtlMs s) ttlMs in
  let expires := (clock s + ttl)%Z in
  let '(tmo, s1) :=
    if m_lazyEviction s then (None, (delete key s).2)
    else let '(h, s') := setTimeout key ttl s in (Some h, s') in
  with_store (store_set key (mkEntry v expires tmo) (m_store s1)) s1.

Definition get (key : K) (s : State) : option V * State :=
  match store_get key (m_store s) with
  | None => (None, s)
  | Some entry =>
      if m_lazyEviction s && isExpired entry s
      then (None, notify key (value entry) (delete key s).2)
      else (Some (value entry), s)
  end.

Definition has (key : K) (s : State) : bool * State :=
  match store_get key (m_store s) with
  | None => (false, s)
  | Some entry =>
      if m_lazyEviction s && isExpired entry s
      then (false, notify key (value entry) (delete key s).2)
      else (true, s)
  end.

(** The loop of [clear] over the entries of [#store]. *)
Definition cancel_all (st : Store) (s : State) : State :=
  foldl (λ acc p,
           match timeout p.2 with
           | Some h => clearTimeout h acc
           | None => acc
           end) s st.

Definition clear (s : State) : State :=
  with_store [] (cancel_all (m_store s) s).

(** The loop of the [size] getter: [has] removes at most the key being
    visited, so the live iteration over [#store.keys()] visits the keys that
    were stored when it started. *)
Definition sweep (s : State) : State :=
  foldl (λ acc key, (has key acc).2) s (store_keys (m_store s)).

Definition size (s : State) : nat * State :=
  if negb (m_lazyEviction s) then (length (m_store s), s)
  else let s' := sweep s in (length (m_store s'), s').

(** ** Generators

    [keys()], [values()] and [entries()] walk [#store] and yield the slots
    for which [this.has(key)] answers true.  A running generator is the list
    of slots it has still to visit; the caller does not change the map between
    two reads, and [has] removes at most the key being visited.  [gen_next] is
    one call of [next()]: it runs in the state of that moment, so the clock
    may have moved since the previous read. *)

Fixpoint gen_next {A : Type} (yielded : K → Entry → A)
    (slots : Store) (s : State) : option A * Store * State :=
  match slots with
  | [] => (None, [], s)
  | (key, entry) :: rest =>
      let '(present, s1) := has key s in
      if present then (Some (yielded key entry), rest, s1)
      else gen_next yielded rest s1
  end.

(** The generator consumed to its end in one go, as [Array.from] does. *)
Fixpoint gen_run {A : Type} (yielded : K → Entry → A)
    (slots : Store) (s : State) : list A * State :=
  match slots with
  | [] => ([], s)
  | (key, entry) :: rest =>
      let '(present, s1) := has key s in
      let '(more, s2) := gen_run yielded rest s1 in
      (if present then yielded key entry :: more else more, s2)
  end.

Definition yield_key (key : K) (entry : Entry) : K := key.
Definition yield_value (key : K) (entry : Entry) : V := value entry.
Definition yield_entry (key : K) (entry : Entry) : K * V := (key, value entry).

Definition keys_next := gen_next yield_key.
Definition values_next := gen_next yield_value.
Definition entries_next := gen_next yield_entry.

Definition keys (s : State) : list K * State :=
  gen_run yield_key (m_store s) s.
Definition values (s : State) : list V * State :=
  gen_run yield_value (m_store s) s.
Definition entries (s : State) : list (K * V) * State :=
  gen_run yield_entry (m_store s) s.

(** [forEach(callback)] with an observing callback: the arguments of its
    calls, in order. *)
Definition forEach (s : State) : list (V * K) * State :=
  let '(es, s') := entries s in ((λ p, (p.2, p.1)) <$> es, s').

(** ** The event loop *)

Definition pending (h : nat) (s : State) : bool :=
  bool_decide (h ∈ handle <$> timers s).

(** A timer that is still pending leaves the queue and runs its closure. *)
Definition fire (tm : Timer) (s : State) : State :=
  if pending (handle tm) s
  then evict (target tm) (clearTimeout (handle tm) s)
  else s.

Fixpoint insert_by_due (tm : Timer) (l : list Timer) : list Timer :=
  match l with
  | [] => [tm]
  | x :: l' =>
      if decide (due tm ≤ due x)%Z then tm :: l
      else x :: insert_by_due tm l'
  end.

(** Timers in the order the host runs them: by due time, then by creation. *)
Definition by_due (l : list Timer) : list Timer := foldr insert_by_due [] l.

(** The script yields to the event loop until the clock reads [t]: every
    timer due by then has run. *)
Definition tick (t : Z) (s : State) : State :=
  with_clock (Z.max t (clock s))
    (foldl (λ acc tm, fire tm acc) s
       (by_due (filter (λ tm, (due tm ≤ t)%Z) (timers s)))).

(** The script keeps running until the clock reads [t]; no timer runs. *)
Definition wait (t : Z) (s : State) : State :=
  with_clock (Z.max t (clock s)) s.

(** ** Scripts over the public surface *)

Inductive Op :=
  | OpSet (key : K) (v : V) (ttlMs : option Z)
  | OpGet (key : K)
  | OpHas (key : K)
  | OpDelete (key : K)
  | OpClear
  | OpSize
  | OpKeys
  | OpValues
  | OpEntries
  | OpForEach
  | OpWait (t : Z)
  | OpTick (t : Z).

Inductive Result :=
  | RThis
  | RVoid
  | RValue (v : option V)
  | RBool (b : bool)
  | RNumber (n : nat)
  | RKeys (ks : list K)
  | RValues (vs : list V)
  | REntries (es : list (K * V))
  | RVisited (cs : list (V * K)).

Definition invoke (op : Op) (s : State) : Outcome (Result * State) :=
  match op with
  | OpSet key v ttlMs => Returned (RThis, set key v ttlMs s)
  | OpGet key => let '(r, s') := get key s in Returned (RValue r, s')
  | OpHas key => let '(r, s') := has key s in Returned (RBool r, s')
  | OpDelete key => let '(r, s') := delete key s in Returned (RBool r, s')
  | OpClear => Returned (RVoid, clear s)
  | OpSize => let '(r, s') := size s in Returned (RNumber r, s')
  | OpKeys => let '(r, s') := keys s in Returned (RKeys r, s')
  | OpValues => let '(r, s') := values s in Returned (RValues r, s')
  | OpEntries => let '(r, s') := entries s in Returned (REntries r, s')
  | OpForEach => let '(r, s') := forEach s in Returned (RVisited r, s')
  | OpWait t => Returned (RVoid, wait t s)
  | OpTick t => Returned (RVoid, tick t s)
  end.

Definition step (op : Op) (s : State) : State :=
  match invoke op s with
  | Returned (_, s') => s'
  | Threw _ => s
  end.

Definition run (ops : list Op) (s : State) : State :=
  foldl (λ acc op, step op acc) s ops.

(** ** Callbacks that throw

    The methods above are the class used with callbacks that return.  The
    class has no [try]: what a callback throws leaves the method that called
    it, at the point of the call.  A callback is described by what it throws,
    if anything: [onExpire] as a function of its earlier calls and of the
    present one, the callback of [forEach] as a function of its arguments.
    Each method returns what it returns or throws, and the state it leaves. *)

Record Callbacks := mkCallbacks {
  onExpire_throws : list Call → Call → option string;
  callback_throws : V → K → option string;
}.

Definition completes {A : Type} (thrown : option string) (a : A) : Outcome A :=
  match thrown with
  | Some message => Threw message
  | None => Returned a
  end.

(** [if (this.#onExpire) { this.#onExpire(key, value); }] : the call is made
    as in [notify]; the first component is what it throws. *)
Definition notify_t (cb : Callbacks) (key : K) (v : V) (s : State)
    : option string * State :=
  (if m_onExpire s
   then onExpire_throws cb (calls s) (mkCall key v (m_store s))
   else None,
   notify key v s).

Definition get_t (cb : Callbacks) (key : K) (s : State)
    : Outcome (option V) * State :=
  match store_get key (m_store s) with
  | None => (Returned None, s)
  | Some entry =>
      if m_lazyEviction s && isExpired entry s
      then let '(thrown, s') := notify_t cb key (value entry) (delete key s).2 in
           (completes thrown None, s')
      else (Returned (Some (value entry)), s)
  end.








End Model.

Global Arguments Entry : clear implicits.
Global Arguments Timer : clear implicits.
Global Arguments Call : clear implicits.
Global Arguments State : clear implicits.
Global Arguments Op : clear implicits.
Global Arguments Result : clear implicits.
Global Arguments Callbacks : clear implicits.

(** * Scripts used as examples: string keys, integer values *)

Local Open Scope Z_scope.

(** The map [new ExpiringMap({ defaultTtlMs, lazyEviction, onExpire })]
    created at time 0. *)
Definition fresh (lazy notifying : bool) (ttl : Z) : State string Z :=
  mkState ttl lazy notifying [] 0 [] 1 [].

(** Timers drive eviction; ["k"] is inserted at 0 ms with a TTL of 50 ms
    and again at 10 ms with a TTL of 500 ms. *)
Definition reinserted : State string Z :=
  run [OpSet "k" 1 (Some 50); OpTick 10; OpSet "k" 2 (Some 500)]
      (fresh false true 1000).

(** The same two insertions, both at 10 ms. *)
Definition reinserted_at_once : State string Z :=
  run [OpTick 10; OpSet "k" 1 (Some 50); OpSet "k" 2 (Some 500)]
      (fresh false true 1000).

(** Timers drive eviction; ["a"] is inserted with a TTL of 50 ms and the
    script runs on, without yielding to the event loop, until 70 ms. *)
Definition overdue : State string Z :=
  run [OpSet "a" 1 (Some 50); OpWait 70] (fresh false true 1000).

(** Lazy eviction; at 70 ms ["a"] (TTL 50 ms) has expired and ["b"]
    (TTL 200 ms) has not. *)
Definition lazy_two : State string Z :=
  run [OpSet "a" 1 (Some 50); OpSet "b" 2 (Some 200); OpWait 70]
      (fresh true true 100).

(** Timers drive eviction; two entries with the default TTL of 100 ms. *)
Definition eager_two : State string Z :=
  run [OpSet "a" 1 None; OpSet "b" 2 None] (fresh false true 100).



Local Close Scope Z_scope.

(** * Properties *)

Section Properties.

Context {K V : Type} `{EqDecision K}.

Local Abbreviation Store := (list (K * Entry V)).

Implicit Types (s acc : State K V) (key k : K) (v : V).
Implicit Types (entry e : Entry V) (st pre rest slots : Store).
Implicit Types (tm : Timer K) (tms : list (Timer K)).
Implicit Types (op : Op K V) (ops : list (Op K V)) (c : Call K V).
Implicit Types (h : nat) (t : Z) (ttlMs : option Z).
Implicit Types (cb : Callbacks K V).


(** ** Vocabulary of the statements *)

(** Keys stay unique, as in a [Map]. *)
Definition wf (s : State K V) : Prop := NoDup (store_keys (m_store s)).

(** The fields set by the constructor are the same in [s] and [s']. *)
Definition same_config (s s' : State K V) : Prop :=
  m_defaultTtlMs s' = m_defaultTtlMs s ∧
  m_lazyEviction s' = m_lazyEviction s ∧
  m_onExpire s' = m_onExpire s.

(** The callback of the call [c] does not find the key of [c] in the store. *)
Definition removed_first (c : Call K V) : Prop :=
  store_get (call_key c) (call_seen c) = None.

(** [c] is a call for a key stored in [s], made after its removal. *)
Definition fresh_call (s : State K V) (c : Call K V) : Prop :=
  call_key c ∈ store_keys (m_store s) ∧ removed_first c.

(** From [s] to [s'] the configuration is kept, entries are only removed
    from the store, and every new call of [onExpire] is for a key that was
    stored in [s] and that the callback no longer finds in the store. *)
Definition evolves (s s' : State K V) : Prop :=
  same_config s s' ∧
  m_store s' `sublist_of` m_store s ∧
  ∃ new, calls s' = calls s ++ new ∧ Forall (fresh_call s) new.

(** The operations that insert, and those that insert [key]. *)
Definition is_set (op : Op K V) : bool :=
  match op with OpSet _ _ _ => true | _ => false end.

Definition sets_key (key : K) (op : Op K V) : bool :=
  match op with OpSet k _ _ => bool_decide (k = key) | _ => false end.

(** The calls of [onExpire] for [key] so far. *)
Definition calls_for (key : K) (s : State K V) : list (Call K V) :=
  filter (λ c, call_key c = key) (calls s).

(** The arguments of the [onExpire] calls so far. *)
Definition notified (s : State K V) : list (K * V) :=
  (λ c, (call_key c, call_value c)) <$> calls s.

(** The stored entries that have not expired at time [t], and the others. *)
Definition alive_at (t : Z) (st : Store) : Store :=
  filter (λ p, (t < expiresAt p.2)%Z) st.

Definition stale_at (t : Z) (st : Store) : Store :=
  filter (λ p, (expiresAt p.2 ≤ t)%Z) st.

(** The entries an iteration shows: all of them, or under lazy eviction
    those that have not expired. *)
Definition visible (s : State K V) : Store :=
  if m_lazyEviction s then alive_at (clock s) (m_store s) else m_store s.

(** The operations that read the map. *)
Definition is_access (op : Op K V) : bool :=
  match op with
  | OpGet _ | OpHas _ | OpSize | OpKeys | OpValues | OpEntries | OpForEach =>
      true
  | _ => false
  end.

(** From [s] to [s'] timers are only cancelled or fired: none is scheduled
    and no handle is given out. *)
Definition shrinks (s s' : State K V) : Prop :=
  timers s' `sublist_of` timers s ∧ nextTimeout s' = nextTimeout s.

(** Pending timers have distinct handles, all given out already. *)
Definition timers_ok (s : State K V) : Prop :=
  NoDup (handle <$> timers s) ∧
  Forall (λ tm, handle tm < nextTimeout s) (timers s).

(** Under lazy eviction there is no timer and no entry holds a handle;
    otherwise every entry holds the handle of the timer scheduled for it. *)
Definition mode_ok (s : State K V) : Prop :=
  if m_lazyEviction s
  then timers s = [] ∧ Forall (λ p, timeout p.2 = None) (m_store s)
  else Forall (λ p, ∃ h, timeout p.2 = Some h ∧ h < nextTimeout s) (m_store s).

(** What holds of every map made by the constructor and used through its
    methods. *)
Definition consistent (s : State K V) : Prop :=
  wf s ∧ timers_ok s ∧ mode_ok s ∧ (0 < m_defaultTtlMs s)%Z.




(** A script in which the event loop never gets a turn. *)
Definition busy (op : Op K V) : Op K V :=
  match op with
  | OpTick t => OpWait t
  | _ => op
  end.

(** ** The store *)

Lemma store_get_None key (st : Store) :
  store_get key st = None ↔ key ∉ store_keys st.
Proof.
  unfold store_keys. induction st as [|[k e] st IH]; simpl.
  - split; [intros _; apply not_elem_of_nil | done].
  - rewrite not_elem_of_cons. destruct (decide (k = key)) as [->|Hne].
    + split; [done | intros [? _]; done].
    + rewrite IH. split; [intros ?; split; [congruence | done] | intros [_ ?]; done].
Qed.

Lemma store_get_Some_elem key entry (st : Store) :
  store_get key st = Some entry → (key, entry) ∈ st.
Proof.
  induction st as [|[k e] st IH]; simpl; [done|].
  destruct (decide (k = key)) as [->|Hne].
  - intros [= ->]. apply list_elem_of_here.
  - intros Hg. apply list_elem_of_further, IH, Hg.
Qed.

Lemma store_get_elem key entry (st : Store) :
  NoDup (store_keys st) → (key, entry) ∈ st → store_get key st = Some entry.
Proof.
  unfold store_keys. induction st as [|[k e] st IH]; simpl.
  - intros _ Hin. by apply not_elem_of_nil in Hin.
  - intros [Hk Hnd]%NoDup_cons [Heq|Hin]%elem_of_cons.
    + injection Heq as -> ->. by rewrite decide_True.
    + destruct (decide (k = key)) as [->|Hne]; [|by apply IH].
      exfalso. apply Hk. apply (list_elem_of_fmap_2 fst) in Hin. exact Hin.
Qed.

Lemma store_get_set_eq key entry (st : Store) :
  store_get key (store_set key entry st) = Some entry.
Proof.
  induction st as [|[k e] st IH]; simpl.
  - by rewrite decide_True.
  - destruct (decide (k = key)) as [->|Hne]; simpl.
    + by rewrite decide_True.
    + by rewrite decide_False.
Qed.

Lemma store_get_set_ne key key' entry (st : Store) :
  key ≠ key' → store_get key' (store_set key entry st) = store_get key' st.
Proof.
  intros Hne. induction st as [|[k e] st IH]; simpl.
  - by rewrite decide_False.
  - destruct (decide (k = key)) as [->|Hk]; simpl.
    + by rewrite !decide_False.
    + destruct (decide (k = key')); [done | exact IH].
Qed.

Lemma store_get_delete_eq key (st : Store) :
  store_get key (store_delete key st) = None.
Proof.
  apply store_get_None. unfold store_keys, store_delete.
  intros [[k e] [Hk Hin]]%list_elem_of_fmap. simpl in Hk. subst k.
  apply list_elem_of_filter in Hin as [Hp _]. by apply Hp.
Qed.

Lemma store_get_delete_ne key key' (st : Store) :
  key ≠ key' → store_get key' (store_delete key st) = store_get key' st.
Proof.
  intros Hne. unfold store_delete.
  induction st as [|[k e] st IH]; [done|].
  rewrite filter_cons. simpl. destruct (decide (k ≠ key)) as [Hk|Hk]; simpl.
  - destruct (decide (k = key')); [done | exact IH].
  - apply dec_stable in Hk. subst k. by rewrite decide_False.
Qed.

Lemma store_delete_absent key (st : Store) :
  store_get key st = None → store_delete key st = st.
Proof.
  unfold store_delete. induction st as [|[k e] st IH]; [done|]. simpl.
  destruct (decide (k = key)) as [->|Hne]; [done|].
  intros Hg. rewrite filter_cons_True by done. by rewrite IH.
Qed.

Lemma store_keys_delete key key' (st : Store) :
  key' ∈ store_keys (store_delete key st) → key' ∈ store_keys st.
Proof.
  unfold store_keys, store_delete.
  intros [p [-> Hin]]%list_elem_of_fmap.
  apply list_elem_of_filter in Hin as [_ Hin].
  by apply (list_elem_of_fmap_2 fst).
Qed.

Lemma store_keys_set key entry (st : Store) :
  store_keys (store_set key entry st) =
    if store_has key st then store_keys st else store_keys st ++ [key].
Proof.
  unfold store_has, store_keys. induction st as [|[k e] st IH]; simpl; [done|].
  destruct (decide (k = key)) as [->|Hne]; simpl.
  - done.
  - destruct (bool_decide (is_Some (store_get key st))); simpl; f_equal; exact IH.
Qed.

Lemma store_has_true key (st : Store) :
  store_has key st = true ↔ key ∈ store_keys st.
Proof.
  unfold store_has. rewrite bool_decide_eq_true.
  destruct (store_get key st) as [e|] eqn:Hg.
  - split; [intros _ | by eauto].
    destruct (decide (key ∈ store_keys st)) as [|Hn]; [done|].
    apply store_get_None in Hn. congruence.
  - split; [by intros [? ?] |]. intros Hin. by apply store_get_None in Hg.
Qed.

Lemma NoDup_store_delete key (st : Store) :
  NoDup (store_keys st) → NoDup (store_keys (store_delete key st)).
Proof.
  unfold store_keys, store_delete. induction st as [|[k e] st IH]; [done|].
  simpl. intros [Hk Hnd]%NoDup_cons. rewrite filter_cons. simpl.
  destruct (decide (k ≠ key)); [|by apply IH].
  simpl. apply NoDup_cons. split; [|by apply IH].
  intros Hin. apply Hk. by apply (store_keys_delete key).
Qed.

Lemma NoDup_store_set key entry (st : Store) :
  NoDup (store_keys st) → NoDup (store_keys (store_set key entry st)).
Proof.
  intros Hnd. rewrite store_keys_set.
  destruct (store_has key st) eqn:Hh; [done|].
  apply NoDup_app. split; [done|]. split; [|apply NoDup_singleton].
  intros k Hk ->%list_elem_of_singleton.
  apply store_has_true in Hk. congruence.
Qed.

Lemma wf_with_store (st : Store) s :
  NoDup (store_keys st) → wf (with_store st s).
Proof. done. Qed.

(** ** What a method may do to the store and to the notifications

    Every operation but [set] makes the state evolve in the sense of
    [evolves], which is a preorder. *)

Lemma sublist_store_keys st st' key :
  st' `sublist_of` st → key ∈ store_keys st' → key ∈ store_keys st.
Proof.
  unfold store_keys. intros Hsub [p [-> Hin]]%list_elem_of_fmap.
  apply (list_elem_of_fmap_2 fst). by eapply elem_of_sublist.
Qed.

Lemma sublist_NoDup_keys st st' :
  st' `sublist_of` st → NoDup (store_keys st) → NoDup (store_keys st').
Proof.
  unfold store_keys. induction 1 as [|p l1 l2 Hsub IH|p l1 l2 Hsub IH]; simpl.
  - done.
  - intros [Hp Hnd]%NoDup_cons. apply NoDup_cons. split; [|by apply IH].
    intros Hin. apply Hp. by apply (sublist_store_keys l2 l1).
  - intros [_ Hnd]%NoDup_cons. by apply IH.
Qed.

Lemma evolves_refl s : evolves s s.
Proof.
  split; [done|]. split; [reflexivity|]. exists []. by rewrite app_nil_r.
Qed.

Lemma evolves_trans s1 s2 s3 : evolves s1 s2 → evolves s2 s3 → evolves s1 s3.
Proof.
  intros [(Hd1 & Hl1 & Ho1) [Hk1 (n1 & Hc1 & Hf1)]]
         [(Hd2 & Hl2 & Ho2) [Hk2 (n2 & Hc2 & Hf2)]].
  split; [repeat split; congruence|]. split; [by etrans|].
  exists (n1 ++ n2). split; [by rewrite Hc2, Hc1, app_assoc|].
  apply Forall_app. split; [done|].
  eapply Forall_impl; [exact Hf2|]. intros c [Hin Hrm]. split; [|done].
  by apply (sublist_store_keys _ (m_store s2)).
Qed.

Lemma evolves_quiet s s' :
  same_config s s' → m_store s' = m_store s → calls s' = calls s →
  evolves s s'.
Proof.
  intros Hcfg Hst Hc. split; [done|]. split; [by rewrite Hst|].
  exists []. by rewrite app_nil_r.
Qed.

Lemma evolves_foldl {A : Type} (f : State K V → A → State K V) (l : list A) s :
  (∀ acc x, evolves acc (f acc x)) → evolves s (foldl f s l).
Proof.
  intros Hf. revert s. induction l as [|x l IH]; intros s; simpl.
  - apply evolves_refl.
  - eapply evolves_trans; [apply Hf | apply IH].
Qed.

Lemma evolves_with_timers tms s : evolves s (with_timers tms s).
Proof. by apply evolves_quiet. Qed.

Lemma evolves_with_clock t s : evolves s (with_clock t s).
Proof. by apply evolves_quiet. Qed.

Lemma evolves_clearTimeout h s : evolves s (clearTimeout h s).
Proof. apply evolves_with_timers. Qed.

(** *** [delete] *)

Lemma delete_store key s :
  m_store (delete key s).2 = store_delete key (m_store s).
Proof.
  unfold delete. destruct (store_get key (m_store s)) as [[v x [h|]]|]; done.
Qed.

Lemma delete_calls key s : calls (delete key s).2 = calls s.
Proof.
  unfold delete. destruct (store_get key (m_store s)) as [[v x [h|]]|]; done.
Qed.

Lemma delete_clock key s : clock (delete key s).2 = clock s.
Proof.
  unfold delete. destruct (store_get key (m_store s)) as [[v x [h|]]|]; done.
Qed.

Lemma delete_config key s : same_config s (delete key s).2.
Proof.
  unfold delete. destruct (store_get key (m_store s)) as [[v x [h|]]|]; done.
Qed.

Lemma delete_returns key s :
  (delete key s).1 = store_has key (m_store s).
Proof.
  unfold delete. destruct (store_get key (m_store s)) as [[v x [h|]]|]; done.
Qed.

Lemma delete_absent key s :
  store_get key (m_store s) = None → (delete key s).2 = s.
Proof.
  intros Hg. unfold delete. rewrite Hg.
  rewrite store_delete_absent by done. by destruct s.
Qed.

Lemma evolves_delete key s : evolves s (delete key s).2.
Proof.
  split; [apply delete_config|]. split.
  - rewrite delete_store. apply sublist_filter.
  - exists []. by rewrite app_nil_r, delete_calls.
Qed.

(** *** [onExpire] after the removal *)

Lemma evolves_notify_removed key entry s s' :
  store_get key (m_store s) = Some entry →
  same_config s s' → m_store s' = store_delete key (m_store s) →
  calls s' = calls s →
  evolves s (notify key (value entry) s').
Proof.
  intros Hg (Hd & Hl & Ho) Hst Hc. unfold notify.
  destruct (m_onExpire s') eqn:Hon.
  - split; [repeat split; simpl; congruence|]. split; simpl.
    + rewrite Hst. apply sublist_filter.
    + exists [mkCall key (value entry) (m_store s')]. split; [by rewrite Hc|].
      apply Forall_singleton. split; simpl.
      * destruct (decide (key ∈ store_keys (m_store s))) as [|Hn]; [done|].
        apply store_get_None in Hn. congruence.
      * unfold removed_first. simpl. rewrite Hst. apply store_get_delete_eq.
  - split; [repeat split; simpl; congruence|]. split.
    + rewrite Hst. apply sublist_filter.
    + exists []. by rewrite app_nil_r.
Qed.

Lemma evolves_evict key s : evolves s (evict key s).
Proof.
  unfold evict. destruct (store_get key (m_store s)) as [entry|] eqn:Hg.
  - by apply (evolves_notify_removed key entry).
  - apply evolves_refl.
Qed.

Lemma evolves_has key s : evolves s (has key s).2.
Proof.
  unfold has. destruct (store_get key (m_store s)) as [entry|] eqn:Hg.
  - destruct (m_lazyEviction s && isExpired entry s); simpl.
    + apply (evolves_notify_removed key entry); [done| | |].
      * apply delete_config.
      * apply delete_store.
      * apply delete_calls.
    + apply evolves_refl.
  - apply evolves_refl.
Qed.

Lemma evolves_get key s : evolves s (get key s).2.
Proof.
  unfold get. destruct (store_get key (m_store s)) as [entry|] eqn:Hg.
  - destruct (m_lazyEviction s && isExpired entry s); simpl.
    + apply (evolves_notify_removed key entry); [done| | |].
      * apply delete_config.
      * apply delete_store.
      * apply delete_calls.
    + apply evolves_refl.
  - apply evolves_refl.
Qed.

Lemma get_has_state key s : (get key s).2 = (has key s).2.
Proof.
  unfold get, has. destruct (store_get key (m_store s)) as [entry|]; [|done].
  by destruct (m_lazyEviction s && isExpired entry s).
Qed.

(** *** The loops *)

Lemma evolves_sweep s : evolves s (sweep s).
Proof. apply evolves_foldl. intros acc key. apply evolves_has. Qed.

Lemma evolves_size s : evolves s (size s).2.
Proof.
  unfold size. destruct (m_lazyEviction s); simpl.
  - apply evolves_sweep.
  - apply evolves_refl.
Qed.

Lemma evolves_gen_next {A : Type} (f : K → Entry V → A) slots s :
  evolves s (gen_next f slots s).2.
Proof.
  revert s. induction slots as [|[key entry] rest IH]; intros s; simpl.
  - apply evolves_refl.
  - pose proof (evolves_has key s) as Hh.
    destruct (has key s) as [[] s1]; simpl in *; [done|].
    eapply evolves_trans; [exact Hh | apply IH].
Qed.

Lemma evolves_gen_run {A : Type} (f : K → Entry V → A) slots s :
  evolves s (gen_run f slots s).2.
Proof.
  revert s. induction slots as [|[key entry] rest IH]; intros s; simpl.
  - apply evolves_refl.
  - pose proof (evolves_has key s) as Hh.
    destruct (has key s) as [present s1]; simpl in *.
    specialize (IH s1). destruct (gen_run f rest s1) as [more s2]; simpl in *.
    eapply evolves_trans; [exact Hh | exact IH].
Qed.

Lemma evolves_forEach s : evolves s (forEach s).2.
Proof.
  unfold forEach, entries.
  pose proof (evolves_gen_run yield_entry (m_store s) s) as Hr.
  by destruct (gen_run yield_entry (m_store s) s).
Qed.

Lemma cancel_all_quiet (l : Store) s :
  same_config s (cancel_all l s) ∧ m_store (cancel_all l s) = m_store s ∧
  calls (cancel_all l s) = calls s ∧ clock (cancel_all l s) = clock s.
Proof.
  unfold cancel_all. revert s.
  induction l as [|[k e] l IH]; intros s; simpl; [done|].
  destruct (timeout e) as [h|]; simpl; [|apply IH].
  destruct (IH (clearTimeout h s)) as ((Hd & Hl & Ho) & Hst & Hc & Hck).
  split; [by split|]. done.
Qed.

Lemma evolves_clear s : evolves s (clear s).
Proof.
  unfold clear.
  destruct (cancel_all_quiet (m_store s) s) as (Hcfg & Hst & Hc & _).
  split; [done|]. split.
  - apply sublist_nil_l.
  - exists []. by rewrite app_nil_r.
Qed.

(** *** The event loop *)

Lemma evolves_fire tm s : evolves s (fire tm s).
Proof.
  unfold fire. destruct (pending (handle tm) s); [|apply evolves_refl].
  eapply evolves_trans; [apply evolves_clearTimeout | apply evolves_evict].
Qed.

Lemma evolves_tick t s : evolves s (tick t s).
Proof.
  unfold tick. eapply evolves_trans; [|apply evolves_with_clock].
  apply evolves_foldl. intros acc tm. apply evolves_fire.
Qed.

Lemma evolves_wait t s : evolves s (wait t s).
Proof. apply evolves_with_clock. Qed.

(** *** [set] *)

Lemma set_store key v ttlMs s :
  ∃ tmo,
    m_store (set key v ttlMs s) =
      store_set key
        (mkEntry v (clock s + default (m_defaultTtlMs s) ttlMs) tmo)
        (if m_lazyEviction s then store_delete key (m_store s)
         else m_store s).
Proof.
  unfold set. destruct (m_lazyEviction s).
  - exists None. by rewrite <- delete_store.
  - exists (Some (nextTimeout s)). done.
Qed.

Lemma set_calls key v ttlMs s : calls (set key v ttlMs s) = calls s.
Proof.
  unfold set. destruct (m_lazyEviction s); [apply delete_calls | done].
Qed.

Lemma set_clock key v ttlMs s : clock (set key v ttlMs s) = clock s.
Proof.
  unfold set. destruct (m_lazyEviction s); [apply delete_clock | done].
Qed.

Lemma set_config key v ttlMs s : same_config s (set key v ttlMs s).
Proof.
  unfold set. destruct (m_lazyEviction s); [apply delete_config | done].
Qed.

Lemma set_other key key' v ttlMs s :
  key ≠ key' →
  store_get key' (m_store (set key v ttlMs s)) = store_get key' (m_store s).
Proof.
  intros Hne. destruct (set_store key v ttlMs s) as [tmo ->].
  rewrite store_get_set_ne by done.
  destruct (m_lazyEviction s); [by apply store_get_delete_ne | done].
Qed.

(** *** One operation of a script *)

Lemma evolves_step op s : is_set op = false → evolves s (step op s).
Proof.
  destruct op; simpl; [done|..]; intros _; unfold step, invoke.
  - pose proof (evolves_get key s). by destruct (get key s).
  - pose proof (evolves_has key s). by destruct (has key s).
  - pose proof (evolves_delete key s). by destruct (delete key s).
  - apply evolves_clear.
  - pose proof (evolves_size s). by destruct (size s).
  - pose proof (evolves_gen_run yield_key (m_store s) s) as Hr.
    unfold keys. by destruct (gen_run yield_key (m_store s) s).
  - pose proof (evolves_gen_run yield_value (m_store s) s) as Hr.
    unfold values. by destruct (gen_run yield_value (m_store s) s).
  - pose proof (evolves_gen_run yield_entry (m_store s) s) as Hr.
    unfold entries. by destruct (gen_run yield_entry (m_store s) s).
  - pose proof (evolves_forEach s). by destruct (forEach s).
  - apply evolves_wait.
  - apply evolves_tick.
Qed.

(** While [key] is not inserted again it stays absent, and [onExpire] is
    not called for it. *)
Lemma evolves_absent key s s' :
  evolves s s' → store_get key (m_store s) = None →
  store_get key (m_store s') = None ∧ calls_for key s' = calls_for key s.
Proof.
  intros (_ & Hk & new & Hc & Hnew) Hg. apply store_get_None in Hg. split.
  - apply store_get_None. intros Hin.
    by apply Hg, (sublist_store_keys _ (m_store s')).
  - unfold calls_for. rewrite Hc, filter_app.
    assert (filter (λ c, call_key c = key) new = []) as ->;
      [|by rewrite app_nil_r].
    clear Hc. induction Hnew as [|c new [Hin _] _ IH]; [done|].
    rewrite filter_cons_False; [exact IH|]. intros <-. by apply Hg.
Qed.

Lemma step_absent key op s :
  sets_key key op = false → store_get key (m_store s) = None →
  store_get key (m_store (step op s)) = None ∧
  calls_for key (step op s) = calls_for key s.
Proof.
  intros Hop Hg. destruct (is_set op) eqn:Hset.
  - destruct op; try done. simpl in Hop. apply bool_decide_eq_false in Hop.
    unfold step, invoke, calls_for. rewrite set_calls. split; [|done].
    by rewrite set_other.
  - by apply evolves_absent; [apply evolves_step|].
Qed.

Lemma run_absent key ops s :
  forallb (λ op, negb (sets_key key op)) ops = true →
  store_get key (m_store s) = None →
  store_get key (m_store (run ops s)) = None ∧
  calls_for key (run ops s) = calls_for key s.
Proof.
  unfold run. revert s. induction ops as [|op ops IH]; intros s; simpl; [done|].
  intros [Hop Hops]%andb_prop Hg. apply negb_true_iff in Hop.
  destruct (step_absent key op s Hop Hg) as [Hg1 Hc1].
  destruct (IH (step op s) Hops Hg1) as [Hg2 Hc2].
  split; [done | congruence].
Qed.

(** ** Lazy eviction seen from outside *)

Local Arguments delete : simpl never.
Local Arguments notify : simpl never.
Local Arguments has : simpl never.
Local Arguments get : simpl never.

Lemma notify_store key v s : m_store (notify key v s) = m_store s.
Proof. unfold notify. by destruct (m_onExpire s). Qed.

Lemma notify_clock key v s : clock (notify key v s) = clock s.
Proof. unfold notify. by destruct (m_onExpire s). Qed.

Lemma notify_config key v s : same_config s (notify key v s).
Proof. unfold notify. by destruct (m_onExpire s). Qed.

Lemma notify_calls key v s :
  calls (notify key v s) =
    calls s ++ (if m_onExpire s then [mkCall key v (m_store s)] else []).
Proof.
  unfold notify. destruct (m_onExpire s); [done|]. by rewrite app_nil_r.
Qed.

Lemma filter_all {A : Type} (P : A → Prop) `{∀ x, Decision (P x)} (l : list A) :
  Forall P l → filter P l = l.
Proof.
  induction 1 as [|x l Hx _ IH]; [done|].
  by rewrite filter_cons_True, IH.
Qed.

Lemma store_delete_middle (pre rest : Store) key entry :
  NoDup (store_keys (pre ++ (key, entry) :: rest)) →
  store_delete key (pre ++ (key, entry) :: rest) = pre ++ rest.
Proof.
  unfold store_keys, store_delete. rewrite fmap_app, fmap_cons. simpl.
  intros (Hpre & Hdisj & [Hk _]%NoDup_cons)%NoDup_app.
  rewrite filter_app, filter_cons_False by (simpl; auto).
  rewrite !filter_all; [done| |].
  - apply Forall_forall. intros [k e] Hin. simpl. intros ->.
    apply Hk. by apply (list_elem_of_fmap_2 fst) in Hin.
  - apply Forall_forall. intros [k e] Hin. simpl. intros ->.
    apply (Hdisj key); [by apply (list_elem_of_fmap_2 fst) in Hin|].
    apply list_elem_of_here.
Qed.

Lemma store_get_middle (pre rest : Store) key entry :
  NoDup (store_keys (pre ++ (key, entry) :: rest)) →
  store_get key (pre ++ (key, entry) :: rest) = Some entry.
Proof.
  intros Hnd. apply store_get_elem; [done|].
  apply elem_of_app. right. apply list_elem_of_here.
Qed.

Lemma has_stale key entry s :
  m_lazyEviction s = true → store_get key (m_store s) = Some entry →
  (expiresAt entry ≤ clock s)%Z →
  has key s = (false, notify key (value entry) (delete key s).2).
Proof.
  intros Hlz Hg Hexp. unfold has, isExpired. rewrite Hg, Hlz.
  by rewrite bool_decide_eq_true_2.
Qed.

Lemma has_kept key entry s :
  store_get key (m_store s) = Some entry →
  (m_lazyEviction s = true → (clock s < expiresAt entry)%Z) →
  has key s = (true, s).
Proof.
  intros Hg Hlive. unfold has, isExpired. rewrite Hg.
  destruct (m_lazyEviction s); [|done].
  rewrite bool_decide_eq_false_2; [done|]. specialize (Hlive eq_refl). lia.
Qed.

Lemma gen_run_cons {A : Type} (f : K → Entry V → A) key entry (rest : Store) s :
  gen_run f ((key, entry) :: rest) s =
    (if (has key s).1
     then f key entry :: (gen_run f rest (has key s).2).1
     else (gen_run f rest (has key s).2).1,
     (gen_run f rest (has key s).2).2).
Proof.
  simpl. destruct (has key s) as [present s1]. simpl.
  by destruct (gen_run f rest s1).
Qed.

Lemma evicted_state key entry s :
  let s1 := notify key (value entry) (delete key s).2 in
  m_store s1 = store_delete key (m_store s) ∧ clock s1 = clock s ∧
  same_config s s1 ∧
  notified s1 =
    notified s ++ (if m_onExpire s then [(key, value entry)] else []).
Proof.
  cbv zeta. rewrite notify_store, notify_clock, delete_store, delete_clock.
  destruct (delete_config key s) as (Hd & Hl & Ho).
  destruct (notify_config key (value entry) (delete key s).2) as (Hd' & Hl' & Ho').
  repeat split; try congruence.
  unfold notified. rewrite notify_calls, delete_calls, fmap_app, Ho.
  by destruct (m_onExpire s).
Qed.

(** A walk over the slots [slots] of a store [pre ++ slots], under lazy
    eviction: the slots that have not expired are yielded and kept, the others
    are removed and notified. *)
Lemma gen_run_lazy {A : Type} (f : K → Entry V → A) (slots pre : Store) s :
  m_lazyEviction s = true →
  m_store s = pre ++ slots →
  NoDup (store_keys (pre ++ slots)) →
  (gen_run f slots s).1 = (λ p, f p.1 p.2) <$> alive_at (clock s) slots ∧
  m_store (gen_run f slots s).2 = pre ++ alive_at (clock s) slots ∧
  clock (gen_run f slots s).2 = clock s ∧
  notified (gen_run f slots s).2 =
    notified s ++
      (if m_onExpire s
       then (λ p, (p.1, value p.2)) <$> stale_at (clock s) slots else []).
Proof.
  revert pre s.
  induction slots as [|[key entry] rest IH]; intros pre s Hlz Hst Hnd.
  - simpl. rewrite Hst. repeat split.
    destruct (m_onExpire s); by rewrite app_nil_r.
  - pose proof (store_get_middle pre rest key entry Hnd) as Hg.
    rewrite <- Hst in Hg. rewrite gen_run_cons.
    unfold alive_at, stale_at. rewrite !filter_cons.
    cbn [fst snd].
    destruct (decide (expiresAt entry ≤ clock s)%Z) as [Hexp|Hlive].
    + rewrite (has_stale key entry s Hlz Hg Hexp). cbn [fst snd].
      rewrite decide_False by lia.
      destruct (evicted_state key entry s) as (Hst1 & Hck1 & (_ & Hlz1 & Hon1) & Hn1).
      rewrite Hst, store_delete_middle in Hst1 by done.
      assert (NoDup (store_keys (pre ++ rest))) as Hnd1.
      { rewrite <- (store_delete_middle pre rest key entry) by done.
        by apply NoDup_store_delete. }
      destruct (IH pre _ (eq_trans Hlz1 Hlz) Hst1 Hnd1) as (Hr & Hs & Hc & Hn).
      rewrite Hck1 in *. rewrite Hon1 in Hn. unfold alive_at, stale_at in *.
      repeat split; [done | done | done |].
      rewrite Hn, Hn1. destruct (m_onExpire s); simpl; by rewrite <- app_assoc.
    + rewrite (has_kept key entry s Hg) by (intros _; lia). cbn [fst snd].
      rewrite decide_True by lia.
      assert (m_store s = (pre ++ [(key, entry)]) ++ rest) as Hst1.
      { by rewrite Hst, <- app_assoc. }
      assert (NoDup (store_keys ((pre ++ [(key, entry)]) ++ rest))) as Hnd1.
      { by rewrite <- app_assoc. }
      destruct (IH (pre ++ [(key, entry)]) s Hlz Hst1 Hnd1) as (Hr & Hs & Hc & Hn).
      unfold alive_at, stale_at in *.
      repeat split; [by rewrite Hr | by rewrite Hs, <- app_assoc | done | done].
Qed.

Lemma has_eager key s :
  m_lazyEviction s = false → has key s = (store_has key (m_store s), s).
Proof.
  intros Hlz. unfold has, store_has. rewrite Hlz.
  by destruct (store_get key (m_store s)) as [entry|].
Qed.

Lemma get_eager key s :
  m_lazyEviction s = false → get key s = (value <$> store_get key (m_store s), s).
Proof.
  intros Hlz. unfold get. rewrite Hlz.
  by destruct (store_get key (m_store s)) as [entry|].
Qed.

(** Without lazy eviction a walk yields every slot whose key is stored. *)
Lemma gen_run_eager {A : Type} (f : K → Entry V → A) (slots : Store) s :
  m_lazyEviction s = false →
  gen_run f slots s =
    ((λ p, f p.1 p.2) <$> filter (λ p, p.1 ∈ store_keys (m_store s)) slots, s).
Proof.
  intros Hlz. induction slots as [|[key entry] rest IH]; [done|].
  rewrite gen_run_cons, has_eager by done. cbn [fst snd].
  rewrite IH, filter_cons. cbn [fst snd].
  destruct (store_has key (m_store s)) eqn:Hh.
  - apply store_has_true in Hh. by rewrite decide_True.
  - rewrite decide_False; [done|]. intros Hin%store_has_true. congruence.
Qed.

Lemma sweep_gen_run {A : Type} (f : K → Entry V → A) (slots : Store) s :
  foldl (λ acc key, (has key acc).2) s (store_keys slots) = (gen_run f slots s).2.
Proof.
  revert s. induction slots as [|[key entry] rest IH]; intros s; [done|].
  rewrite gen_run_cons. cbn [fst snd]. rewrite <- IH. done.
Qed.

Lemma get_stale key entry s :
  m_lazyEviction s = true → store_get key (m_store s) = Some entry →
  (expiresAt entry ≤ clock s)%Z →
  get key s = (None, notify key (value entry) (delete key s).2).
Proof.
  intros Hlz Hg Hexp. unfold get, isExpired. rewrite Hg, Hlz.
  by rewrite bool_decide_eq_true_2.
Qed.

Lemma get_kept key entry s :
  store_get key (m_store s) = Some entry →
  (m_lazyEviction s = true → (clock s < expiresAt entry)%Z) →
  get key s = (Some (value entry), s).
Proof.
  intros Hg Hlive. unfold get, isExpired. rewrite Hg.
  destruct (m_lazyEviction s); [|done].
  rewrite bool_decide_eq_false_2; [done|]. specialize (Hlive eq_refl). lia.
Qed.

Lemma get_absent key s :
  store_get key (m_store s) = None → get key s = (None, s).
Proof. intros Hg. unfold get. by rewrite Hg. Qed.

Lemma has_absent key s :
  store_get key (m_store s) = None → has key s = (false, s).
Proof. intros Hg. unfold has. by rewrite Hg. Qed.

(** What an access does to an expired entry under lazy eviction. *)
Lemma access_stale key entry s :
  m_lazyEviction s = true →
  store_get key (m_store s) = Some entry →
  (expiresAt entry ≤ clock s)%Z →
  ∃ s',
    get key s = (None, s') ∧ has key s = (false, s') ∧
    m_store s' = store_delete key (m_store s) ∧
    store_get key (m_store s') = None ∧
    calls s' =
      calls s ++
        (if m_onExpire s
         then [mkCall key (value entry) (store_delete key (m_store s))]
         else []) ∧
    get key s' = (None, s') ∧ has key s' = (false, s').
Proof.
  intros Hlz Hg Hexp.
  exists (notify key (value entry) (delete key s).2).
  rewrite (get_stale key entry), (has_stale key entry) by done.
  assert (store_get key
            (m_store (notify key (value entry) (delete key s).2)) = None)
    as Hgone.
  { rewrite notify_store, delete_store. apply store_get_delete_eq. }
  rewrite get_absent, has_absent by done.
  rewrite notify_store, notify_calls, delete_store, delete_calls.
  destruct (delete_config key s) as (_ & _ & ->).
  repeat split. rewrite <- delete_store, <- (notify_store key (value entry)).
  exact Hgone.
Qed.

(** ** Reading under lazy eviction *)

(** C3 — under lazy eviction, [get] and [has] of a key that is not stored
    answer absent / false and change nothing; of a key whose entry has not
    expired ([now < expiresAt]) they answer the stored value / true and change
    nothing; of a key whose entry has expired ([now >= expiresAt]) they remove
    the entry, call [onExpire(key, value)] once (when a callback was
    supplied), and answer absent / false; a second access finds nothing and
    notifies nothing. *)
Theorem lazy_get_has key s :
  m_lazyEviction s = true →
  (store_get key (m_store s) = None →
     get key s = (None, s) ∧ has key s = (false, s)) ∧
  (∀ entry,
     store_get key (m_store s) = Some entry →
     (clock s < expiresAt entry)%Z →
     get key s = (Some (value entry), s) ∧ has key s = (true, s)) ∧
  (∀ entry,
     store_get key (m_store s) = Some entry →
     (expiresAt entry ≤ clock s)%Z →
     ∃ s',
       get key s = (None, s') ∧ has key s = (false, s') ∧
       m_store s' = store_delete key (m_store s) ∧
       store_get key (m_store s') = None ∧
       calls s' =
         calls s ++
           (if m_onExpire s
            then [mkCall key (value entry) (store_delete key (m_store s))]
            else []) ∧
       get key s' = (None, s') ∧ has key s' = (false, s')).
Proof.
  intros Hlz. split; [|split].
  - intros Hg. by rewrite get_absent, has_absent.
  - intros entry Hg Hlive. by rewrite (get_kept key entry), (has_kept key entry).
  - intros entry. by apply access_stale.
Qed.

(** ** Writing *)

(** C5 — in either mode, right after [set(key, v)] whose effective TTL (the
    explicit [ttlMs], or else the default) is positive, [get(key)] returns [v]
    and [has(key)] returns true, and neither changes the state. *)
Theorem set_then_get key v ttlMs s :
  (0 < default (m_defaultTtlMs s) ttlMs)%Z →
  get key (set key v ttlMs s) = (Some v, set key v ttlMs s) ∧
  has key (set key v ttlMs s) = (true, set key v ttlMs s).
Proof.
  intros Hpos. destruct (set_store key v ttlMs s) as [tmo Hst].
  assert (store_get key (m_store (set key v ttlMs s)) =
            Some (mkEntry v (clock s + default (m_defaultTtlMs s) ttlMs) tmo))
    as Hg by (rewrite Hst; apply store_get_set_eq).
  rewrite (get_kept key _ _ Hg), (has_kept key _ _ Hg);
    [done | |]; intros _; rewrite set_clock; simpl; lia.
Qed.

(** C9 — [set] accepts every [ttlMs], zero and negative included: it returns
    the map, and the entry it stores has [expiresAt = now + ttlMs].  Under
    lazy eviction an entry stored with [ttlMs <= 0] is expired from the start:
    the next access, whenever it comes, removes it, answers absent / false and
    calls [onExpire] once. *)
Theorem set_accepts_any_ttl key v (ttl : Z) s :
  invoke (OpSet key v (Some ttl)) s = Returned (RThis, set key v (Some ttl) s) ∧
  (∃ tmo,
     store_get key (m_store (set key v (Some ttl) s)) =
       Some (mkEntry v (clock s + ttl) tmo)) ∧
  (m_lazyEviction s = true → (ttl ≤ 0)%Z →
   ∀ t, ∃ s',
     get key (wait t (set key v (Some ttl) s)) = (None, s') ∧
     has key (wait t (set key v (Some ttl) s)) = (false, s') ∧
     store_get key (m_store s') = None ∧
     notified s' =
       notified s ++ (if m_onExpire s then [(key, v)] else [])).
Proof.
  destruct (set_store key v (Some ttl) s) as [tmo Hst]. simpl in Hst.
  assert (store_get key (m_store (set key v (Some ttl) s)) =
            Some (mkEntry v (clock s + ttl) tmo))
    as Hg by (rewrite Hst; apply store_get_set_eq).
  split; [done|]. split; [by exists tmo|].
  intros Hlz Httl t.
  destruct (set_config key v (Some ttl) s) as (_ & Hlz' & Hon').
  set (s1 := wait t (set key v (Some ttl) s)).
  assert (m_lazyEviction s1 = true) as Hlz1 by (unfold s1; simpl; congruence).
  assert (store_get key (m_store s1) = Some (mkEntry v (clock s + ttl) tmo))
    as Hg1 by exact Hg.
  assert (expiresAt (mkEntry v (clock s + ttl) tmo) ≤ clock s1)%Z as Hexp.
  { unfold s1. simpl. rewrite set_clock. lia. }
  destruct (access_stale key _ s1 Hlz1 Hg1 Hexp)
    as (s' & Hget & Hhas & _ & Hgone & Hcalls & _).
  exists s'. repeat split; [done | done | done |].
  unfold notified. rewrite Hcalls, fmap_app. f_equal.
  - unfold s1. simpl. by rewrite set_calls.
  - replace (m_onExpire s1) with (m_onExpire s) by (unfold s1; simpl; congruence).
    by destruct (m_onExpire s).
Qed.

(** ** Keys stay unique *)

Lemma wf_step op s : wf s → wf (step op s).
Proof.
  unfold wf. intros Hnd. destruct (is_set op) eqn:Hset.
  - destruct op; try done. unfold step, invoke.
    destruct (set_store key v ttlMs s) as [tmo ->].
    apply NoDup_store_set. destruct (m_lazyEviction s); [|done].
    by apply NoDup_store_delete.
  - destruct (evolves_step op s Hset) as (_ & Hsub & _).
    by apply (sublist_NoDup_keys (m_store s)).
Qed.

Lemma wf_run ops s : wf s → wf (run ops s).
Proof.
  unfold run. revert s. induction ops as [|op ops IH]; intros s Hwf; [done|].
  simpl. by apply IH, wf_step.
Qed.

Lemma wf_new options now s : new options now = Returned s → wf s.
Proof.
  unfold new. destruct (decide _); [done|]. intros [= <-]. apply NoDup_nil_2.
Qed.

(** ** [size] *)

(** C4 — without lazy eviction [size] returns the number of stored entries
    and looks at no clock; under lazy eviction it first passes every stored
    key through [has], which removes each expired entry and calls [onExpire]
    for it, and then returns the number of entries left: exactly those that
    have not expired. *)
Theorem size_counts s :
  wf s →
  if m_lazyEviction s
  then size s = (length (alive_at (clock s) (m_store s)), sweep s) ∧
       m_store (sweep s) = alive_at (clock s) (m_store s) ∧
       notified (sweep s) =
         notified s ++
           (if m_onExpire s
            then (λ p, (p.1, value p.2)) <$> stale_at (clock s) (m_store s)
            else [])
  else size s = (length (m_store s), s).
Proof.
  intros Hwf. unfold size. destruct (m_lazyEviction s) eqn:Hlz; [|done].
  simpl. unfold sweep. rewrite (sweep_gen_run yield_key).
  destruct (gen_run_lazy yield_key (m_store s) [] s Hlz eq_refl Hwf)
    as (_ & Hst & _ & Hn).
  simpl in Hst. by rewrite Hst, Hn.
Qed.

(** ** Iteration *)

Lemma has_true_inv key s s1 :
  has key s = (true, s1) →
  s1 = s ∧
  ∃ entry, store_get key (m_store s) = Some entry ∧
           (m_lazyEviction s = true → (clock s < expiresAt entry)%Z).
Proof.
  unfold has, isExpired. destruct (store_get key (m_store s)) as [entry|]; [|done].
  destruct (m_lazyEviction s); simpl.
  - case_bool_decide; [done|]. intros [= <-]. split; [done|].
    exists entry. split; [done|]. intros _. lia.
  - intros [= <-]. split; [done|]. by exists entry.
Qed.

Lemma gen_next_yield {A : Type} (f : K → Entry V → A) slots s x rest s1 :
  gen_next f slots s = (Some x, rest, s1) →
  ∃ skipped key entry,
    slots = skipped ++ (key, entry) :: rest ∧ x = f key entry ∧
    has key s1 = (true, s1) ∧
    ∃ e, store_get key (m_store s1) = Some e ∧
         (m_lazyEviction s1 = true → (clock s1 < expiresAt e)%Z).
Proof.
  revert s. induction slots as [|[key entry] slots IH]; intros s; simpl; [done|].
  destruct (has key s) as [[] s'] eqn:Hh.
  - intros [= <- <- <-]. exists [], key, entry.
    destruct (has_true_inv key s s' Hh) as (-> & e & Hg & Hlive).
    repeat split; [done|]. by exists e.
  - intros Hn. destruct (IH s' Hn) as (skipped & k & e & -> & Hrest).
    by exists ((key, entry) :: skipped), k, e.
Qed.

(** C2, as the code has it — [keys()], [values()] and [entries()] yield, in
    the insertion order of the store, the entries for which [has] answers
    true at the moment they are produced: under lazy eviction exactly the
    entries that have not expired, and without lazy eviction every stored
    entry, whatever its [expiresAt]. *)
Theorem iteration_yields_visible s :
  wf s →
  (keys s).1 = (visible s).*1 ∧
  (values s).1 = value <$> (visible s).*2 ∧
  (entries s).1 = (λ p, (p.1, value p.2)) <$> visible s ∧
  visible s `sublist_of` m_store s ∧
  (∀ (A : Type) (f : K → Entry V → A) slots s0 x rest s1,
     gen_next f slots s0 = (Some x, rest, s1) →
     ∃ skipped key entry,
       slots = skipped ++ (key, entry) :: rest ∧ x = f key entry ∧
       has key s1 = (true, s1) ∧
       ∃ e, store_get key (m_store s1) = Some e ∧
            (m_lazyEviction s1 = true → (clock s1 < expiresAt e)%Z)).
Proof.
  intros Hwf. unfold keys, values, entries, visible.
  destruct (m_lazyEviction s) eqn:Hlz.
  - destruct (gen_run_lazy yield_key (m_store s) [] s Hlz eq_refl Hwf) as (-> & _).
    destruct (gen_run_lazy yield_value (m_store s) [] s Hlz eq_refl Hwf) as (-> & _).
    destruct (gen_run_lazy yield_entry (m_store s) [] s Hlz eq_refl Hwf) as (-> & _).
    split; [done|]. split; [by rewrite <- list_fmap_compose|].
    split; [done|]. split; [apply sublist_filter|].
    intros A f. apply gen_next_yield.
  - rewrite !gen_run_eager by done. simpl.
    rewrite filter_all.
    + split; [done|]. split; [by rewrite <- list_fmap_compose|].
      split; [done|]. split; [done|].
      intros A f. apply gen_next_yield.
    + apply Forall_forall. intros p Hin. by apply (list_elem_of_fmap_2 fst).
Qed.

(** ** The store the callback sees *)

(** C10 — every call of [onExpire] made by an access under lazy eviction
    ([get], [has], [size], the iterations) comes after the removal of the
    entry: in the store the callback sees, [has] of the expiring key is false
    and [size] does not count that key. *)
Theorem lazy_removal_precedes_onExpire op s :
  m_lazyEviction s = true → is_access op = true →
  ∃ new,
    calls (step op s) = calls s ++ new ∧
    Forall (λ c,
      store_get (call_key c) (call_seen c) = None ∧
      ∀ s_cb : State K V,
        m_store s_cb = call_seen c →
        has (call_key c) s_cb = (false, s_cb) ∧
        (size s_cb).1 = length (m_store (size s_cb).2) ∧
        call_key c ∉ store_keys (m_store (size s_cb).2)) new.
Proof.
  intros _ Hop.
  assert (is_set op = false) as Hset by (by destruct op).
  destruct (evolves_step op s Hset) as (_ & _ & new & Hc & Hnew).
  exists new. split; [done|].
  eapply Forall_impl; [exact Hnew|]. intros c [_ Hrm]. split; [done|].
  intros s_cb Hst. unfold removed_first in Hrm. rewrite <- Hst in Hrm.
  split; [by apply has_absent|]. split.
  - unfold size. by destruct (m_lazyEviction s_cb).
  - destruct (evolves_size s_cb) as (_ & Hsub & _).
    intros Hin. apply (sublist_store_keys _ _ _ Hsub) in Hin.
    by apply store_get_None in Hrm.
Qed.

(** ** Cancelled timers *)

Lemma pending_false h s : pending h s = false ↔ h ∉ handle <$> timers s.
Proof. unfold pending. apply bool_decide_eq_false. Qed.

Lemma pending_clearTimeout h s : pending h (clearTimeout h s) = false.
Proof.
  apply pending_false. simpl. intros [tm [-> Hin]]%list_elem_of_fmap.
  apply list_elem_of_filter in Hin as [Hne _]. by apply Hne.
Qed.

Lemma pending_clearTimeout_mono h h' s :
  pending h s = false → pending h (clearTimeout h' s) = false.
Proof.
  rewrite !pending_false. simpl. intros Hn [tm [-> Hin]]%list_elem_of_fmap.
  apply list_elem_of_filter in Hin as [_ Hin].
  by apply Hn, (list_elem_of_fmap_2 handle).
Qed.

Lemma pending_cancel_all_mono h (l : Store) s :
  pending h s = false → pending h (cancel_all l s) = false.
Proof.
  unfold cancel_all. revert s.
  induction l as [|[k e] l IH]; intros s Hp; simpl; [done|].
  apply IH. destruct (timeout e) as [h'|]; [|done].
  by apply pending_clearTimeout_mono.
Qed.

Lemma pending_cancel_all h key entry (l : Store) s :
  (key, entry) ∈ l → timeout entry = Some h →
  pending h (cancel_all l s) = false.
Proof.
  revert s. induction l as [|[k e] l IH]; intros s Hin Ht.
  - by apply not_elem_of_nil in Hin.
  - apply elem_of_cons in Hin as [[= <- <-]|Hin].
    + unfold cancel_all. simpl. rewrite Ht.
      apply (pending_cancel_all_mono h l), pending_clearTimeout.
    + unfold cancel_all. simpl. by apply (IH _ Hin).
Qed.

Lemma evolves_run ops s :
  forallb (λ op, negb (is_set op)) ops = true → evolves s (run ops s).
Proof.
  unfold run. revert s. induction ops as [|op ops IH]; intros s; simpl.
  - intros _. apply evolves_refl.
  - intros [Hop Hops]%andb_prop. apply negb_true_iff in Hop.
    eapply evolves_trans; [by apply evolves_step | by apply IH].
Qed.

Lemma evolves_empty s s' :
  evolves s s' → m_store s = [] → m_store s' = [] ∧ calls s' = calls s.
Proof.
  intros (_ & Hsub & new & Hc & Hnew) Hst. rewrite Hst in Hsub. split.
  - by apply sublist_nil_r.
  - destruct Hnew as [|c new [Hin _] _]; [by rewrite Hc, app_nil_r|].
    rewrite Hst in Hin. by apply not_elem_of_nil in Hin.
Qed.

(** ** [clear] and [delete] *)

(** C6 — [clear()] cancels the timer of every stored entry and empties the
    store: [size] is 0 at once, [clear] itself calls no [onExpire], and
    whatever follows (waiting for any length of time included) calls
    [onExpire] for no key until that key is inserted again. *)
Theorem clear_spec s :
  m_store (clear s) = [] ∧
  size (clear s) = (0, clear s) ∧
  calls (clear s) = calls s ∧
  (∀ key entry h,
     (key, entry) ∈ m_store s → timeout entry = Some h →
     pending h (clear s) = false) ∧
  (∀ ops,
     forallb (λ op, negb (is_set op)) ops = true →
     m_store (run ops (clear s)) = [] ∧ calls (run ops (clear s)) = calls s) ∧
  (∀ key ops,
     forallb (λ op, negb (sets_key key op)) ops = true →
     calls_for key (run ops (clear s)) = calls_for key s).
Proof.
  destruct (cancel_all_quiet (m_store s) s) as (_ & _ & Hc & _).
  split; [done|]. split.
  { unfold size, sweep. by destruct (m_lazyEviction (clear s)). }
  split; [done|]. split; [|split].
  - intros key entry h Hin Ht. unfold clear.
    apply (pending_cancel_all h key entry (m_store s) s Hin Ht).
  - intros ops Hops.
    destruct (evolves_empty _ _ (evolves_run ops (clear s) Hops) eq_refl)
      as [Hst Hcalls].
    split; [done | by rewrite Hcalls].
  - intros key ops Hops.
    destruct (run_absent key ops (clear s) Hops eq_refl) as [_ ->].
    unfold calls_for. by rewrite <- Hc.
Qed.

(** C7 — [delete(key)] removes the entry of [key] and no other, cancels the
    timer of the removed entry, returns true exactly when there was an entry
    to remove, and calls no [onExpire]; nor is [onExpire] called for [key]
    by anything that follows (waiting for any length of time included),
    until [key] is inserted again. *)
Theorem delete_spec key s :
  ((delete key s).1 = true ↔ is_Some (store_get key (m_store s))) ∧
  store_get key (m_store (delete key s).2) = None ∧
  (∀ k, k ≠ key →
     store_get k (m_store (delete key s).2) = store_get k (m_store s)) ∧
  (∀ entry h,
     store_get key (m_store s) = Some entry → timeout entry = Some h →
     pending h (delete key s).2 = false) ∧
  calls (delete key s).2 = calls s ∧
  (∀ ops,
     forallb (λ op, negb (sets_key key op)) ops = true →
     calls_for key (run ops (delete key s).2) = calls_for key s).
Proof.
  assert (store_get key (m_store (delete key s).2) = None) as Hgone.
  { rewrite delete_store. apply store_get_delete_eq. }
  split; [|split; [done|split; [|split; [|split]]]].
  - rewrite delete_returns. unfold store_has. apply bool_decide_eq_true.
  - intros k Hne. rewrite delete_store. by apply store_get_delete_ne.
  - intros entry h Hg Ht. unfold delete. rewrite Hg, Ht.
    apply pending_clearTimeout.
  - apply delete_calls.
  - intros ops Hops.
    destruct (run_absent key ops _ Hops Hgone) as [_ ->].
    unfold calls_for. by rewrite delete_calls.
Qed.

(** ** Construction *)

(** ** Re-insertion without lazy eviction *)

(** Without lazy eviction [set] schedules a new timer and leaves every
    pending timer in the queue, that of the entry it overwrites included. *)
Lemma set_eager_timers key v ttlMs s :
  m_lazyEviction s = false →
  timers (set key v ttlMs s) =
    timers s ++
      [mkTimer (nextTimeout s)
               (clock s + default (m_defaultTtlMs s) ttlMs) key].
Proof. intros Hlz. unfold set. by rewrite Hlz. Qed.

Lemma set_eager_pending key v ttlMs h s :
  m_lazyEviction s = false → pending h s = true →
  pending h (set key v ttlMs s) = true.
Proof.
  intros Hlz. unfold pending. rewrite !bool_decide_eq_true.
  rewrite set_eager_timers, fmap_app by done. intros Hin.
  apply elem_of_app. by left.
Qed.

(** A timer that fires removes whatever entry its key has at that moment,
    and notifies with the value of that entry. *)
Lemma fire_evicts tm entry s :
  pending (handle tm) s = true →
  store_get (target tm) (m_store s) = Some entry →
  store_get (target tm) (m_store (fire tm s)) = None ∧
  notified (fire tm s) =
    notified s ++ (if m_onExpire s then [(target tm, value entry)] else []).
Proof.
  intros Hp Hg. unfold fire, evict. rewrite Hp. simpl. rewrite Hg.
  rewrite notify_store. simpl. split; [apply store_get_delete_eq|].
  unfold notified. rewrite notify_calls, fmap_app. simpl.
  by destruct (m_onExpire s).
Qed.

(** * Further properties of the methods *)

(** ** What [get] and [has] return *)

Lemma get_result key s :
  (get key s).1 =
    match store_get key (m_store s) with
    | Some entry =>
        if m_lazyEviction s && isExpired entry s then None
        else Some (value entry)
    | None => None
    end.
Proof.
  unfold get. destruct (store_get key (m_store s)) as [entry|]; [|done].
  by destruct (m_lazyEviction s && isExpired entry s).
Qed.

Lemma has_result key s :
  (has key s).1 =
    match store_get key (m_store s) with
    | Some entry => negb (m_lazyEviction s && isExpired entry s)
    | None => false
    end.
Proof.
  unfold has. destruct (store_get key (m_store s)) as [entry|]; [|done].
  by destruct (m_lazyEviction s && isExpired entry s).
Qed.

(** X1 — [has(key)] is true exactly when [get(key)] returns a value, and
    the two leave the map in the same state (same removal, same
    notification). *)
Theorem has_iff_get key s :
  (has key s).1 = bool_decide (is_Some (get key s).1) ∧
  (has key s).2 = (get key s).2.
Proof.
  split; [|by rewrite get_has_state].
  rewrite has_result, get_result.
  destruct (store_get key (m_store s)) as [entry|]; [|done].
  by destruct (m_lazyEviction s && isExpired entry s).
Qed.

(** X2 — without lazy eviction, reading never changes anything: [get],
    [has], [size], [keys], [values], [entries] and [forEach] leave the store,
    the timers and the notifications as they were, whatever the clock says. *)
Theorem eager_reads_change_nothing op s :
  m_lazyEviction s = false → is_access op = true → step op s = s.
Proof.
  intros Hlz Hop. unfold step, invoke.
  destruct op as [k v ttl|k|k|k| | | | | | |t|t]; try done.
  - by rewrite get_eager.
  - by rewrite has_eager.
  - unfold size. by rewrite Hlz.
  - unfold keys. by rewrite gen_run_eager.
  - unfold values. by rewrite gen_run_eager.
  - unfold entries. by rewrite gen_run_eager.
  - unfold forEach, entries. by rewrite gen_run_eager.
Qed.

(** ** [delete] of a key that is not stored *)

(** X3 — [delete] of a key that is not stored returns false and changes
    nothing; in particular a second [delete] of the same key returns false. *)
Theorem delete_missing key s :
  (store_get key (m_store s) = None → delete key s = (false, s)) ∧
  delete key (delete key s).2 = (false, (delete key s).2).
Proof.
  assert (∀ s', store_get key (m_store s') = None → delete key s' = (false, s'))
    as Hmiss.
  { intros s' Hg. rewrite (surjective_pairing (delete key s')).
    rewrite delete_returns, delete_absent by done.
    unfold store_has. by rewrite Hg. }
  split; [apply Hmiss|]. apply Hmiss.
  rewrite delete_store. apply store_get_delete_eq.
Qed.

(** ** Where [set] puts the key *)

Lemma store_keys_delete_filter key st :
  store_keys (store_delete key st) = filter (λ k, k ≠ key) (store_keys st).
Proof.
  unfold store_keys, store_delete. induction st as [|[k e] st IH]; [done|].
  rewrite fmap_cons, !filter_cons. cbn [fst].
  destruct (decide (k ≠ key)); [|exact IH].
  rewrite fmap_cons. cbn [fst]. by rewrite IH.
Qed.

(** X4 — the place of a key in the iteration order after [set]: without
    lazy eviction a key that is already stored keeps its place and a new key
    goes last; under lazy eviction the key always goes last, because [set]
    deletes it first. *)
Theorem set_position key v ttlMs s :
  store_keys (m_store (set key v ttlMs s)) =
    if m_lazyEviction s
    then filter (λ k, k ≠ key) (store_keys (m_store s)) ++ [key]
    else if store_has key (m_store s) then store_keys (m_store s)
         else store_keys (m_store s) ++ [key].
Proof.
  destruct (set_store key v ttlMs s) as [tmo ->]. rewrite store_keys_set.
  destruct (m_lazyEviction s); [|done].
  rewrite <- store_keys_delete_filter.
  destruct (store_has key (store_delete key (m_store s))) eqn:Hh; [|done].
  apply bool_decide_eq_true in Hh. rewrite store_get_delete_eq in Hh.
  by destruct Hh.
Qed.

(** X5 — [set] of one key does not change what [get] and [has] answer for
    another key. *)
Theorem set_other_key key k v ttlMs s :
  k ≠ key →
  (get k (set key v ttlMs s)).1 = (get k s).1 ∧
  (has k (set key v ttlMs s)).1 = (has k s).1.
Proof.
  intros Hne. rewrite !get_result, !has_result.
  rewrite set_other by done.
  destruct (set_config key v ttlMs s) as (_ & -> & _).
  unfold isExpired. by rewrite set_clock.
Qed.

(** ** The life of an entry under lazy eviction *)

(** X6 — under lazy eviction an entry inserted at time [now] with effective
    TTL [ttl] is found by [has] and [get] at a later time [t] exactly when
    [t < now + ttl]. *)
Theorem lazy_ttl_window key v ttlMs t s :
  m_lazyEviction s = true → (clock s ≤ t)%Z →
  (has key (wait t (set key v ttlMs s))).1 =
    bool_decide (t < clock s + default (m_defaultTtlMs s) ttlMs)%Z ∧
  (get key (wait t (set key v ttlMs s))).1 =
    if bool_decide (t < clock s + default (m_defaultTtlMs s) ttlMs)%Z
    then Some v else None.
Proof.
  intros Hlz Ht. rewrite has_result, get_result.
  destruct (set_store key v ttlMs s) as [tmo Hst].
  destruct (set_config key v ttlMs s) as (_ & Hlz' & _).
  change (m_store (wait t (set key v ttlMs s))) with (m_store (set key v ttlMs s)).
  change (m_lazyEviction (wait t (set key v ttlMs s)))
    with (m_lazyEviction (set key v ttlMs s)).
  rewrite Hst, store_get_set_eq, Hlz', Hlz. unfold isExpired.
  change (clock (wait t (set key v ttlMs s)))
    with (Z.max t (clock (set key v ttlMs s))).
  rewrite set_clock. cbn [expiresAt value andb].
  replace (Z.max t (clock s)) with t by lia.
  repeat case_bool_decide; (done || lia).
Qed.

(** ** The three iterations, [forEach] and [size] together *)

Lemma gen_run_state {A B : Type} (f : K → Entry V → A) (g : K → Entry V → B)
    slots s :
  (gen_run f slots s).2 = (gen_run g slots s).2.
Proof.
  revert s. induction slots as [|[key entry] rest IH]; intros s; [done|].
  rewrite !gen_run_cons. cbn [snd]. apply IH.
Qed.

Lemma gen_run_zip slots s :
  (gen_run yield_entry slots s).1 =
    zip (gen_run yield_key slots s).1 (gen_run yield_value slots s).1.
Proof.
  revert s. induction slots as [|[key entry] rest IH]; intros s; [done|].
  rewrite !gen_run_cons. cbn [fst]. rewrite IH.
  by destruct (has key s).1.
Qed.

(** X7 — consumed from the same state, [entries()] yields the pairs of what
    [keys()] and [values()] yield, position by position, and the three leave
    the map in the same state. *)
Theorem entries_zip_keys_values s :
  (entries s).1 = zip (keys s).1 (values s).1 ∧
  (keys s).2 = (entries s).2 ∧
  (values s).2 = (entries s).2.
Proof.
  unfold entries, keys, values. split; [apply gen_run_zip|].
  split; apply gen_run_state.
Qed.

Lemma gen_run_visible {A : Type} (f : K → Entry V → A) s :
  wf s →
  (gen_run f (m_store s) s).1 = (λ p, f p.1 p.2) <$> visible s ∧
  m_store (gen_run f (m_store s) s).2 = visible s ∧
  clock (gen_run f (m_store s) s).2 = clock s.
Proof.
  intros Hwf. unfold visible. destruct (m_lazyEviction s) eqn:Hlz.
  - destruct (gen_run_lazy f (m_store s) [] s Hlz eq_refl Hwf)
      as (Hr & Hst & Hck & _).
    done.
  - rewrite gen_run_eager by done. cbn [fst snd]. rewrite filter_all; [done|].
    apply Forall_forall. intros p Hin. by apply (list_elem_of_fmap_2 fst).
Qed.

(** X8 — [forEach] calls its callback with [(value, key)] once for every
    entry that [entries()] shows, in insertion order: every stored entry
    without lazy eviction, the entries that have not expired under lazy
    eviction; it leaves the map as [entries()] does. *)
Theorem forEach_visits s :
  wf s →
  (forEach s).1 = (λ p, (value p.2, p.1)) <$> visible s ∧
  (forEach s).2 = (entries s).2.
Proof.
  intros Hwf. unfold forEach, entries.
  destruct (gen_run_visible yield_entry s Hwf) as (Hr & _).
  destruct (gen_run yield_entry (m_store s) s) as [es s'] eqn:Hrun.
  cbn [fst snd] in *. split; [|done].
  rewrite Hr, <- list_fmap_compose. done.
Qed.

Lemma size_is_length_keys_aux s :
  wf s →
  (size s).1 = length (keys s).1 ∧ (size s).2 = (keys s).2.
Proof.
  intros Hwf. unfold keys.
  destruct (gen_run_visible yield_key s Hwf) as (Hr & Hst & _).
  unfold size, visible in *. destruct (m_lazyEviction s) eqn:Hlz; cbn [negb fst snd].
  - unfold sweep. rewrite (sweep_gen_run yield_key). split; [|done].
    by rewrite Hst, Hr, length_fmap.
  - rewrite gen_run_eager by done. cbn [fst snd]. rewrite gen_run_eager in Hr by done.
    cbn [fst] in Hr. split; [|done]. by rewrite Hr, length_fmap.
Qed.

(** X9 — [size] is the number of keys that [keys()] yields, and the two
    leave the map in the same state. *)
Theorem size_is_length_keys s :
  wf s →
  (size s).1 = length (keys s).1 ∧ (size s).2 = (keys s).2.
Proof.
  intros Hwf. unfold keys.
  destruct (gen_run_visible yield_key s Hwf) as (Hr & Hst & _).
  unfold size, visible in *. destruct (m_lazyEviction s) eqn:Hlz; cbn [negb fst snd].
  - unfold sweep. rewrite (sweep_gen_run yield_key). split; [|done].
    by rewrite Hst, Hr, length_fmap.
  - rewrite gen_run_eager by done. cbn [fst snd]. rewrite gen_run_eager in Hr by done.
    cbn [fst] in Hr. split; [|done]. by rewrite Hr, length_fmap.
Qed.

(** A walk over slots whose keys are stored and have not expired yields
    them all and changes nothing. *)
Lemma gen_run_kept {A : Type} (f : K → Entry V → A) slots s :
  Forall (λ p, ∃ e, store_get p.1 (m_store s) = Some e ∧
                    (m_lazyEviction s = true → (clock s < expiresAt e)%Z))
         slots →
  gen_run f slots s = ((λ p, f p.1 p.2) <$> slots, s).
Proof.
  induction 1 as [|[key entry] rest (e & Hg & Hlive) _ IH]; [done|].
  rewrite gen_run_cons, (has_kept key e s Hg Hlive). cbn [fst snd].
  by rewrite IH.
Qed.

Lemma alive_all_kept s :
  wf s →
  Forall (λ p, (m_lazyEviction s = true → (clock s < expiresAt p.2)%Z))
         (m_store s) →
  Forall (λ p, ∃ e, store_get p.1 (m_store s) = Some e ∧
                    (m_lazyEviction s = true → (clock s < expiresAt e)%Z))
         (m_store s).
Proof.
  intros Hwf Hall. apply Forall_forall. intros [k e] Hin.
  exists e. split; [by apply store_get_elem|].
  by apply (proj1 (Forall_forall _ _) Hall (k, e)).
Qed.

(** X10 — the removal of expired entries is done once: right after [size]
    or an iteration, the same call again (the clock not having moved)
    returns the same and changes nothing. *)
Theorem sweep_once s :
  wf s →
  size (size s).2 = ((size s).1, (size s).2) ∧
  keys (keys s).2 = ((keys s).1, (keys s).2).
Proof.
  intros Hwf.
  destruct (gen_run_visible yield_key s Hwf) as (Hr & Hst & Hck).
  destruct (size_is_length_keys_aux s Hwf) as [Hn Hs].
  destruct (evolves_gen_run yield_key (m_store s) s) as ((_ & Hlz & _) & Hsub & _).
  unfold keys in *. rewrite Hs, Hn.
  set (r := gen_run yield_key (m_store s) s) in *.
  assert (wf r.2) as Hwf' by by apply (sublist_NoDup_keys (m_store s)).
  assert (length (m_store r.2) = length r.1) as Hlen
    by by rewrite Hr, Hst, length_fmap.
  assert (gen_run yield_key (m_store r.2) r.2 = (r.1, r.2)) as Hagain.
  { rewrite gen_run_kept; [by rewrite Hr, Hst|].
    apply alive_all_kept; [done|]. rewrite Hst, Hck, Hlz.
    unfold visible. destruct (m_lazyEviction s); [|by apply Forall_true].
    apply Forall_forall. by intros p [Hp _]%list_elem_of_filter. }
  split; [|exact Hagain].
  unfold size. destruct (m_lazyEviction r.2); cbn [negb].
  - unfold sweep. rewrite (sweep_gen_run yield_key), Hagain. cbn [snd].
    by rewrite Hlen.
  - by rewrite Hlen.
Qed.

(** ** What the methods do to the timers *)

Lemma shrinks_refl s : shrinks s s.
Proof. by split. Qed.

Lemma shrinks_trans s1 s2 s3 : shrinks s1 s2 → shrinks s2 s3 → shrinks s1 s3.
Proof. intros [Ht1 Hn1] [Ht2 Hn2]. split; [by etrans | congruence]. Qed.

Lemma shrinks_same s s' :
  timers s' = timers s → nextTimeout s' = nextTimeout s → shrinks s s'.
Proof. intros Ht Hn. split; [by rewrite Ht | done]. Qed.

Lemma shrinks_foldl {A : Type} (f : State K V → A → State K V) (l : list A) s :
  (∀ acc x, shrinks acc (f acc x)) → shrinks s (foldl f s l).
Proof.
  intros Hf. revert s. induction l as [|x l IH]; intros s; simpl.
  - apply shrinks_refl.
  - eapply shrinks_trans; [apply Hf | apply IH].
Qed.

Lemma shrinks_clearTimeout h s : shrinks s (clearTimeout h s).
Proof. split; [apply sublist_filter | done]. Qed.

Lemma shrinks_notify key v s : shrinks s (notify key v s).
Proof. unfold notify. by destruct (m_onExpire s). Qed.

Lemma shrinks_delete key s : shrinks s (delete key s).2.
Proof.
  unfold delete. destruct (store_get key (m_store s)) as [[x y [h|]]|]; cbn [timeout snd].
  - apply (shrinks_trans _ (clearTimeout h s)); [apply shrinks_clearTimeout|].
    by apply shrinks_same.
  - by apply shrinks_same.
  - by apply shrinks_same.
Qed.

Lemma shrinks_evict key s : shrinks s (evict key s).
Proof.
  unfold evict. destruct (store_get key (m_store s)) as [entry|]; [|apply shrinks_refl].
  eapply shrinks_trans; [|apply shrinks_notify]. by apply shrinks_same.
Qed.

Lemma shrinks_has key s : shrinks s (has key s).2.
Proof.
  unfold has. destruct (store_get key (m_store s)) as [entry|]; [|apply shrinks_refl].
  destruct (m_lazyEviction s && isExpired entry s); [|apply shrinks_refl].
  eapply shrinks_trans; [apply shrinks_delete | apply shrinks_notify].
Qed.

Lemma shrinks_gen_run {A : Type} (f : K → Entry V → A) slots s :
  shrinks s (gen_run f slots s).2.
Proof.
  revert s. induction slots as [|[key entry] rest IH]; intros s.
  - apply shrinks_refl.
  - rewrite gen_run_cons. cbn [snd].
    eapply shrinks_trans; [apply shrinks_has | apply IH].
Qed.

Lemma shrinks_fire tm s : shrinks s (fire tm s).
Proof.
  unfold fire. destruct (pending (handle tm) s); [|apply shrinks_refl].
  eapply shrinks_trans; [apply shrinks_clearTimeout | apply shrinks_evict].
Qed.

Lemma shrinks_step op s : is_set op = false → shrinks s (step op s).
Proof.
  intros Hop. unfold step, invoke.
  destruct op as [k v ttl|k|k|k| | | | | | |t|t]; try done.
  - rewrite (surjective_pairing (get k s)), get_has_state. apply shrinks_has.
  - rewrite (surjective_pairing (has k s)). apply shrinks_has.
  - rewrite (surjective_pairing (delete k s)). apply shrinks_delete.
  - unfold clear. eapply shrinks_trans; [|by apply shrinks_same].
    unfold cancel_all. apply shrinks_foldl. intros acc [k e]. cbn [snd].
    destruct (timeout e); [apply shrinks_clearTimeout | apply shrinks_refl].
  - unfold size. destruct (m_lazyEviction s); cbn [negb]; [|apply shrinks_refl].
    unfold sweep. apply shrinks_foldl. intros acc k. apply shrinks_has.
  - unfold keys. rewrite (surjective_pairing (gen_run _ _ _)). apply shrinks_gen_run.
  - unfold values. rewrite (surjective_pairing (gen_run _ _ _)). apply shrinks_gen_run.
  - unfold entries. rewrite (surjective_pairing (gen_run _ _ _)). apply shrinks_gen_run.
  - unfold forEach, entries. rewrite (surjective_pairing (gen_run _ _ _)).
    apply shrinks_gen_run.
  - unfold tick. eapply shrinks_trans; [|by apply shrinks_same].
    apply shrinks_foldl. intros acc tm. apply shrinks_fire.
Qed.

Lemma timers_ok_shrinks s s' : shrinks s s' → timers_ok s → timers_ok s'.
Proof.
  intros [Hsub Hn] [Hnd Hlt]. split.
  - eapply sublist_NoDup; [exact Hnd|]. by apply fmap_sublist.
  - rewrite Hn. apply Forall_forall. intros tm Hin.
    apply (proj1 (Forall_forall _ _) Hlt). by eapply elem_of_sublist.
Qed.

Lemma Forall_sublist_store (P : K * Entry V → Prop) st st' :
  st' `sublist_of` st → Forall P st → Forall P st'.
Proof.
  intros Hsub Hall. apply Forall_forall. intros p Hin.
  apply (proj1 (Forall_forall _ _) Hall). by eapply elem_of_sublist.
Qed.

Lemma Forall_store_set (P : Entry V → Prop) key entry st :
  P entry → Forall (λ p, P p.2) st →
  Forall (λ p, P p.2) (store_set key entry st).
Proof.
  intros He. induction 1 as [|[k e] st Hp Hst IH]; simpl.
  - by apply Forall_singleton.
  - destruct (decide (k = key)); apply Forall_cons; by split.
Qed.

(** ** An invariant of the class *)

Lemma consistent_new options now s : new options now = Returned s → consistent s.
Proof.
  unfold new. destruct (decide (defaultTtlMs options ≤ 0)%Z) as [|Hpos]; [done|].
  intros [= <-]. split; [apply NoDup_nil_2|]. split; [|split].
  - split; [apply NoDup_nil_2 | apply Forall_nil_2].
  - unfold mode_ok. simpl. by destruct (default false (lazyEviction options)).
  - simpl. lia.
Qed.

Lemma consistent_step op s : consistent s → consistent (step op s).
Proof.
  intros (Hwf & Htm & Hmode & Hpos). split; [by apply wf_step|].
  destruct (is_set op) eqn:Hset.
  - destruct op as [key v ttlMs| | | | | | | | | | |]; try done.
    unfold step, invoke.
    destruct (set_config key v ttlMs s) as (Hd & Hlz & _).
    unfold mode_ok in *. rewrite Hlz, Hd.
    unfold set. destruct (m_lazyEviction s) eqn:Hlzs.
    + destruct Hmode as [Ht Hnone].
      pose proof (shrinks_delete key s) as Hsh.
      split; [by apply (timers_ok_shrinks s)|]. split; [|done]. split.
      * destruct Hsh as [Hsub _]. rewrite Ht in Hsub. by apply sublist_nil_r.
      * cbn [m_store with_store].
        apply (Forall_store_set (λ e, timeout e = None)); [done|].
        rewrite delete_store. eapply Forall_sublist_store; [|exact Hnone].
        apply sublist_filter.
    + destruct Htm as [Hnd Hlt]. unfold timers_ok, with_store. simpl.
      split; [split|split; [|done]].
      * rewrite fmap_app. apply NoDup_app. split; [done|].
        split; [|apply NoDup_singleton].
        intros h [tm [-> Hin]]%list_elem_of_fmap Hnew.
        pose proof (proj1 (Forall_forall _ _) Hlt tm Hin) as Hh.
        simpl in Hh, Hnew. apply list_elem_of_singleton in Hnew. lia.
      * apply Forall_app. split.
        -- eapply Forall_impl; [exact Hlt|]. intros tm Hh. simpl in Hh. lia.
        -- apply Forall_singleton. simpl. lia.
      * apply (Forall_store_set (λ e, ∃ h, timeout e = Some h ∧ h < S (nextTimeout s))).
        -- exists (nextTimeout s). split; [done | lia].
        -- eapply Forall_impl; [exact Hmode|].
           intros p (h & Hh & Hlth). exists h. split; [done | lia].
  - destruct (evolves_step op s Hset) as ((Hd & Hlz & _) & Hsub & _).
    pose proof (shrinks_step op s Hset) as Hsh.
    split; [by apply (timers_ok_shrinks s)|]. split; [|by rewrite Hd].
    unfold mode_ok in *. rewrite Hlz. destruct Hsh as [Htsub Hn].
    destruct (m_lazyEviction s).
    + destruct Hmode as [Ht Hnone]. split.
      * rewrite Ht in Htsub. by apply sublist_nil_r.
      * by eapply Forall_sublist_store.
    + rewrite Hn. by eapply Forall_sublist_store.
Qed.

Lemma consistent_run ops s : consistent s → consistent (run ops s).
Proof.
  unfold run. revert s. induction ops as [|op ops IH]; intros s Hs; [done|].
  simpl. by apply IH, consistent_step.
Qed.

(** X11 — whatever is done with a map after its construction: the default
    TTL is positive, keys are stored once, pending timers have distinct
    handles; under lazy eviction no timer is ever scheduled and no entry
    holds a handle, and otherwise every stored entry holds the handle of a
    timer that was scheduled for it. *)
Theorem constructed_map_consistent options now ops s :
  new options now = Returned s →
  wf (run ops s) ∧ timers_ok (run ops s) ∧ mode_ok (run ops s) ∧
  (0 < m_defaultTtlMs (run ops s))%Z.
Proof. intros Hnew. by apply consistent_run, (consistent_new options now). Qed.

(** ** Timers that fire *)

Lemma pending_true h s : pending h s = true ↔ h ∈ handle <$> timers s.
Proof. unfold pending. apply bool_decide_eq_true. Qed.

Lemma notify_timers key v s : timers (notify key v s) = timers s.
Proof. unfold notify. by destruct (m_onExpire s). Qed.

Lemma evict_timers key s : timers (evict key s) = timers s.
Proof.
  unfold evict. destruct (store_get key (m_store s)); [|done].
  by rewrite notify_timers.
Qed.

Lemma calls_for_notify_ne key k v s :
  key ≠ k → calls_for k (notify key v s) = calls_for k s.
Proof.
  intros Hne. unfold calls_for. rewrite notify_calls, filter_app.
  destruct (m_onExpire s); [|by rewrite app_nil_r].
  rewrite filter_cons_False by done. by rewrite app_nil_r.
Qed.

Lemma calls_for_notify_eq key v s :
  calls_for key (notify key v s) =
    calls_for key s ++
      (if m_onExpire s then [mkCall key v (m_store s)] else []).
Proof.
  unfold calls_for. rewrite notify_calls, filter_app.
  destruct (m_onExpire s); [|done]. by rewrite filter_cons_True.
Qed.

Lemma fire_other_key tm k s :
  target tm ≠ k →
  store_get k (m_store (fire tm s)) = store_get k (m_store s) ∧
  calls_for k (fire tm s) = calls_for k s.
Proof.
  intros Hne. unfold fire. destruct (pending (handle tm) s); [|done].
  unfold evict. change (m_store (clearTimeout (handle tm) s)) with (m_store s).
  destruct (store_get (target tm) (m_store s)) as [entry|]; [|done].
  rewrite notify_store, calls_for_notify_ne by done. split; [|done].
  by apply store_get_delete_ne.
Qed.

Lemma fire_same_key tm entry s :
  pending (handle tm) s = true →
  store_get (target tm) (m_store s) = Some entry →
  store_get (target tm) (m_store (fire tm s)) = None ∧
  calls_for (target tm) (fire tm s) =
    calls_for (target tm) s ++
      (if m_onExpire s
       then [mkCall (target tm) (value entry)
                    (store_delete (target tm) (m_store s))]
       else []).
Proof.
  intros Hp Hg. unfold fire, evict. rewrite Hp.
  change (m_store (clearTimeout (handle tm) s)) with (m_store s). rewrite Hg.
  rewrite notify_store, calls_for_notify_eq. split; [|done].
  apply store_get_delete_eq.
Qed.

Lemma pending_fire_other h tm s :
  pending h s = true → h ≠ handle tm → pending h (fire tm s) = true.
Proof.
  rewrite !pending_true. intros [x [-> Hin]]%list_elem_of_fmap Hne.
  unfold fire. destruct (pending (handle tm) s);
    [|by apply (list_elem_of_fmap_2 handle)].
  rewrite evict_timers. apply (list_elem_of_fmap_2 handle).
  apply list_elem_of_filter. by split.
Qed.

(** Timers for other keys leave the entry of [k] and its notifications
    alone. *)
Lemma fire_all_untouched (l : list (Timer K)) k s :
  Forall (λ tm, target tm ≠ k) l →
  store_get k (m_store (foldl (λ acc tm, fire tm acc) s l)) =
    store_get k (m_store s) ∧
  calls_for k (foldl (λ acc tm, fire tm acc) s l) = calls_for k s.
Proof.
  intros Hl. revert s. induction Hl as [|tm l Hne _ IH]; intros s; [done|].
  simpl. destruct (IH (fire tm s)) as [-> ->]. by apply fire_other_key.
Qed.

(** Of the timers that fire, the first one for a key removes the entry of
    that key and notifies; the later ones find nothing. *)
Lemma fire_all_evicts (l : list (Timer K)) tm s :
  tm ∈ l → NoDup (handle <$> l) →
  Forall (λ x, pending (handle x) s = true) l →
  store_get (target tm) (m_store (foldl (λ acc x, fire x acc) s l)) = None ∧
  ∀ entry,
    store_get (target tm) (m_store s) = Some entry →
    ∃ seen,
      calls_for (target tm) (foldl (λ acc x, fire x acc) s l) =
        calls_for (target tm) s ++
          (if m_onExpire s then [mkCall (target tm) (value entry) seen]
           else []).
Proof.
  revert s. induction l as [|x l IH]; intros s Hin Hnd Hp.
  { by apply not_elem_of_nil in Hin. }
  rewrite fmap_cons in Hnd. apply NoDup_cons in Hnd as [Hx Hnd].
  apply Forall_cons in Hp as [Hpx Hp]. simpl.
  assert (evolves (fire x s) (foldl (λ acc x, fire x acc) (fire x s) l)) as Hev.
  { apply evolves_foldl. intros acc y. apply evolves_fire. }
  destruct (decide (target x = target tm)) as [Heq|Hne].
  - destruct (store_get (target tm) (m_store s)) as [e|] eqn:Hg.
    + rewrite <- Heq in Hg.
      destruct (fire_same_key x e s Hpx Hg) as [Hgone Hcalls].
      rewrite Heq in Hgone, Hcalls.
      destruct (evolves_absent _ _ _ Hev Hgone) as [Hend Hsame].
      split; [done|]. intros entry [= <-]. eexists. by rewrite Hsame, Hcalls.
    + destruct (evolves_absent _ _ _ (evolves_fire x s) Hg) as [Hgone _].
      destruct (evolves_absent _ _ _ Hev Hgone) as [Hend _]. by split.
  - apply elem_of_cons in Hin as [->|Hin]; [done|].
    destruct (fire_other_key x (target tm) s Hne) as [Hst Hcalls].
    destruct (evolves_fire x s) as ((_ & _ & Hon) & _).
    destruct (IH (fire x s) Hin Hnd) as [Hgone Hnote].
    { apply Forall_forall. intros y Hy. apply pending_fire_other.
      - by apply (proj1 (Forall_forall _ _) Hp).
      - intros Heq. apply Hx. rewrite <- Heq. by apply (list_elem_of_fmap_2 handle). }
    split; [done|]. intros entry Hg. rewrite <- Hst in Hg.
    destruct (Hnote entry Hg) as [seen Hc]. exists seen.
    by rewrite Hc, Hcalls, Hon.
Qed.

Lemma calls_for_set k key v ttlMs s :
  calls_for k (set key v ttlMs s) = calls_for k s.
Proof. unfold calls_for. by rewrite set_calls. Qed.

Lemma insert_by_due_perm tm (l : list (Timer K)) : insert_by_due tm l ≡ₚ tm :: l.
Proof.
  induction l as [|x l IH]; simpl; [done|].
  destruct (decide (due tm ≤ due x)%Z); [done|].
  rewrite IH. apply Permutation_swap.
Qed.

Lemma by_due_perm (l : list (Timer K)) : by_due l ≡ₚ l.
Proof.
  unfold by_due. induction l as [|x l IH]; simpl; [done|].
  by rewrite insert_by_due_perm, IH.
Qed.

Lemma tick_spares_aux k t s :
  Forall (λ tm, target tm = k → (t < due tm)%Z) (timers s) →
  store_get k (m_store (tick t s)) = store_get k (m_store s) ∧
  calls_for k (tick t s) = calls_for k s.
Proof.
  intros Hall. unfold tick.
  apply (fire_all_untouched _ k s). apply Forall_forall. intros tm Hin Heq.
  rewrite by_due_perm in Hin. apply list_elem_of_filter in Hin as [Hdue Hin].
  pose proof (proj1 (Forall_forall _ _) Hall tm Hin Heq). lia.
Qed.

Lemma tick_evicts_aux tm t s :
  NoDup (handle <$> timers s) → tm ∈ timers s → (due tm ≤ t)%Z →
  store_get (target tm) (m_store (tick t s)) = None ∧
  ∀ entry,
    store_get (target tm) (m_store s) = Some entry →
    ∃ seen,
      calls_for (target tm) (tick t s) =
        calls_for (target tm) s ++
          (if m_onExpire s then [mkCall (target tm) (value entry) seen]
           else []).
Proof.
  intros Hnd Hin Hdue. unfold tick.
  apply (fire_all_evicts _ tm s).
  - rewrite by_due_perm. apply list_elem_of_filter. by split.
  - rewrite by_due_perm. eapply sublist_NoDup; [exact Hnd|].
    apply fmap_sublist, sublist_filter.
  - apply Forall_forall. intros x Hx. rewrite by_due_perm in Hx.
    apply list_elem_of_filter in Hx as [_ Hx].
    apply pending_true. by apply (list_elem_of_fmap_2 handle).
Qed.

(** X12 — when the event loop runs until [t], a key for which no pending
    timer is due by [t] keeps its entry, and [onExpire] is not called for
    it; without lazy eviction [get] and [has] answer for it as before. *)
Theorem tick_spares k t s :
  Forall (λ tm, target tm = k → (t < due tm)%Z) (timers s) →
  store_get k (m_store (tick t s)) = store_get k (m_store s) ∧
  calls_for k (tick t s) = calls_for k s ∧
  (m_lazyEviction s = false →
   (get k (tick t s)).1 = (get k s).1 ∧ (has k (tick t s)).1 = (has k s).1).
Proof.
  intros Hall. destruct (tick_spares_aux k t s Hall) as [Hst Hc].
  split; [done|]. split; [done|]. intros Hlz.
  destruct (evolves_tick t s) as ((_ & Hlz' & _) & _).
  rewrite !get_result, !has_result, Hst, Hlz', Hlz. done.
Qed.

(** X13 — when the event loop runs until [t], a pending timer due by [t]
    leaves its key without entry, whichever [set] stored the entry that was
    there: [has] is false, [get] is absent, and if the key was stored
    [onExpire] has been called for it exactly once, with the value that was
    stored. *)
Theorem tick_runs_due_timer tm t s :
  NoDup (handle <$> timers s) → tm ∈ timers s → (due tm ≤ t)%Z →
  has (target tm) (tick t s) = (false, tick t s) ∧
  get (target tm) (tick t s) = (None, tick t s) ∧
  ∀ entry,
    store_get (target tm) (m_store s) = Some entry →
    ∃ seen,
      calls_for (target tm) (tick t s) =
        calls_for (target tm) s ++
          (if m_onExpire s then [mkCall (target tm) (value entry) seen]
           else []).
Proof.
  intros Hnd Hin Hdue.
  destruct (tick_evicts_aux tm t s Hnd Hin Hdue) as [Hgone Hcalls].
  by rewrite has_absent, get_absent.
Qed.

(** X14 — without lazy eviction, an entry inserted at time [now] with
    effective TTL [ttl] is gone once the event loop has run until a time
    [t >= now + ttl], with no access needed: [has] is false, [get] is
    absent, and [onExpire(key, v)] has been called exactly once for the
    key. *)
Theorem eager_entry_expires key v ttlMs t s :
  timers_ok s → m_lazyEviction s = false →
  (clock s + default (m_defaultTtlMs s) ttlMs ≤ t)%Z →
  has key (tick t (set key v ttlMs s)) = (false, tick t (set key v ttlMs s)) ∧
  get key (tick t (set key v ttlMs s)) = (None, tick t (set key v ttlMs s)) ∧
  ∃ seen,
    calls_for key (tick t (set key v ttlMs s)) =
      calls_for key s ++ (if m_onExpire s then [mkCall key v seen] else []).
Proof.
  intros [Hnd Hlt] Hlz Hdue.
  set (tm := mkTimer (nextTimeout s)
                     (clock s + default (m_defaultTtlMs s) ttlMs) key).
  pose proof (set_eager_timers key v ttlMs s Hlz) as Htm. fold tm in Htm.
  destruct (tick_evicts_aux tm t (set key v ttlMs s)) as [Hgone Hcalls].
  - rewrite Htm, fmap_app. apply NoDup_app. split; [done|].
    split; [|apply NoDup_singleton].
    intros h [x [-> Hin]]%list_elem_of_fmap Hnew.
    pose proof (proj1 (Forall_forall _ _) Hlt x Hin) as Hh.
    simpl in Hh, Hnew. apply list_elem_of_singleton in Hnew. lia.
  - rewrite Htm. apply elem_of_app. right. apply list_elem_of_here.
  - done.
  - cbn [target tm] in *. rewrite has_absent, get_absent by done.
    split; [done|]. split; [done|].
    destruct (set_store key v ttlMs s) as [tmo Hst].
    destruct (Hcalls (mkEntry v (clock s + default (m_defaultTtlMs s) ttlMs) tmo))
      as [seen Hc]; [rewrite Hst; apply store_get_set_eq|].
    exists seen. rewrite Hc, calls_for_set.
    by destruct (set_config key v ttlMs s) as (_ & _ & ->).
Qed.

(** X15 — without lazy eviction, an entry inserted at time [now] with an
    effective TTL [ttl] between 1 ms and 2^31 - 1 ms (the delays that the
    host's [setTimeout] waits for as given) is still there when the event
    loop has run until a time [t < now + ttl], provided no timer left for the
    same key is due by then: [get] returns the value and no [onExpire] was
    called for the key. *)
Theorem eager_entry_survives key v ttlMs t s :
  m_lazyEviction s = false →
  (1 ≤ default (m_defaultTtlMs s) ttlMs ≤ 2147483647)%Z →
  Forall (λ tm, target tm = key → (t < due tm)%Z) (timers s) →
  (t < clock s + default (m_defaultTtlMs s) ttlMs)%Z →
  get key (tick t (set key v ttlMs s)) = (Some v, tick t (set key v ttlMs s)) ∧
  has key (tick t (set key v ttlMs s)) = (true, tick t (set key v ttlMs s)) ∧
  calls_for key (tick t (set key v ttlMs s)) = calls_for key s.
Proof.
  intros Hlz _ Hall Hearly.
  destruct (tick_spares_aux key t (set key v ttlMs s)) as [Hst Hc].
  { rewrite set_eager_timers by done. apply Forall_app. split; [done|].
    apply Forall_singleton. by intros _. }
  destruct (set_store key v ttlMs s) as [tmo Hset].
  rewrite Hset, store_get_set_eq in Hst.
  destruct (set_config key v ttlMs s) as (_ & Hlz1 & _).
  destruct (evolves_tick t (set key v ttlMs s)) as ((_ & Hlz2 & _) & _).
  assert (m_lazyEviction (tick t (set key v ttlMs s)) = false) as Hlz3
    by congruence.
  rewrite (get_kept key _ _ Hst), (has_kept key _ _ Hst) by congruence.
  split; [done|]. split; [done|].
  by rewrite Hc, calls_for_set.
Qed.

Lemma step_config op s : same_config s (step op s).
Proof.
  destruct (is_set op) eqn:Hset.
  - destruct op; try done. apply set_config.
  - by destruct (evolves_step op s Hset).
Qed.

Lemma busy_run ops s :
  consistent s → m_lazyEviction s = true →
  run (busy <$> ops) s = run ops s ∧ timers (run ops s) = [].
Proof.
  unfold run. revert s. induction ops as [|op ops IH]; intros s Hs Hlz.
  - destruct Hs as (_ & _ & Hmode & _). unfold mode_ok in Hmode.
    rewrite Hlz in Hmode. by destruct Hmode.
  - simpl. assert (step (busy op) s = step op s) as ->.
    { destruct op; try done. unfold step, invoke, tick.
      destruct Hs as (_ & _ & Hmode & _). unfold mode_ok in Hmode.
      rewrite Hlz in Hmode. destruct Hmode as [-> _]. done. }
    apply IH; [by apply consistent_step|].
    destruct (step_config op s) as (_ & -> & _). done.
Qed.

(** X16 — a map constructed with [lazyEviction: true] never has a timer
    pending, whatever is done with it, and the event loop has nothing to do
    for it: a script gives the same map when each of its turns of the event
    loop is replaced by the script running on for as long.  Entries are
    removed, and [onExpire] is called, by the methods only. *)
Theorem lazy_time_alone options now ops s :
  new options now = Returned s → m_lazyEviction s = true →
  run (busy <$> ops) s = run ops s ∧ timers (run ops s) = [].
Proof.
  intros Hnew Hlz. apply busy_run; [|done].
  by apply (consistent_new options now).
Qed.

(** X17 — [set] never calls [onExpire], in either mode: the entry it
    overwrites, expired or not, is dropped without notification, and the
    clock and the configuration are left alone. *)
Theorem set_never_notifies key v ttlMs s :
  calls (set key v ttlMs s) = calls s ∧
  clock (set key v ttlMs s) = clock s ∧
  same_config s (set key v ttlMs s) ∧
  ∀ k, calls_for k (set key v ttlMs s) = calls_for k s.
Proof.
  split; [apply set_calls|]. split; [apply set_clock|].
  split; [apply set_config|]. intros k. apply calls_for_set.
Qed.

(** ** Errors *)


Lemma get_t_state cb key s : (get_t cb key s).2 = (get key s).2.
Proof.
  unfold get_t, get, notify_t.
  destruct (store_get key (m_store s)) as [entry|]; [|done].
  by destruct (m_lazyEviction s && isExpired entry s).
Qed.


















End Properties.

(** * The properties at work on the example scripts *)

Local Open Scope Z_scope.

Lemma fresh_new lazy notifying ttl :
  (0 < ttl)%Z →
  new (mkOptions ttl (Some lazy) notifying) 0 =
    Returned (fresh lazy notifying ttl).
Proof. intros Hpos. unfold new. simpl. by rewrite decide_False by lia. Qed.

Lemma wf_fresh lazy notifying ttl : wf (fresh lazy notifying ttl).
Proof. apply NoDup_nil_2. Qed.

(** C1, at the input where the code fails — without lazy eviction,
    re-inserting ["k"] at 10 ms leaves the timer of the first insertion
    (handle 1, due at 50 ms) pending; once the event loop has reached 60 ms
    that timer has removed the new entry and called [onExpire("k", 2)]:
    [has("k")] is false and [get("k")] is absent, where the claim has true
    and the second value.  The same happens when both insertions are made at
    10 ms. *)
Theorem reinsert_leaves_stale_timer :
  pending 1%nat reinserted = true ∧
  store_get "k" (m_store reinserted) = Some (mkEntry 2 510 (Some 2%nat)) ∧
  clock (tick 60 reinserted) = 60%Z ∧
  has "k" (tick 60 reinserted) = (false, tick 60 reinserted) ∧
  get "k" (tick 60 reinserted) = (None, tick 60 reinserted) ∧
  notified (tick 60 reinserted) = [("k", 2%Z)] ∧
  pending 1%nat reinserted_at_once = true ∧
  has "k" (tick 60 reinserted_at_once) = (false, tick 60 reinserted_at_once) ∧
  get "k" (tick 60 reinserted_at_once) = (None, tick 60 reinserted_at_once) ∧
  notified (tick 60 reinserted_at_once) = [("k", 2%Z)].
Proof. by vm_compute. Qed.

(** C2 as stated fails without lazy eviction: at 70 ms the entry of ["a"],
    whose [expiresAt] is 50, is still stored (its timer has had no chance to
    run) and [keys()] yields it, although no stored entry is unexpired. *)
Lemma eager_iteration_yields_expired :
  m_lazyEviction overdue = false ∧
  store_get "a" (m_store overdue) = Some (mkEntry 1 50 (Some 1%nat)) ∧
  clock overdue = 70%Z ∧
  (keys overdue).1 = ["a"] ∧
  (alive_at (clock overdue) (m_store overdue)).*1 = [] ∧
  (keys overdue).1 ≠ (alive_at (clock overdue) (m_store overdue)).*1.
Proof. by vm_compute. Qed.

Lemma iteration_yields_visible_witness :
  wf lazy_two ∧
  (keys lazy_two).1 = ["b"] ∧
  (values lazy_two).1 = [2%Z] ∧
  (entries lazy_two).1 = [("b", 2%Z)].
Proof.
  assert (wf lazy_two) as Hwf by apply wf_run, wf_fresh.
  split; [exact Hwf|].
  destruct (iteration_yields_visible lazy_two Hwf) as (Hk & Hv & He & _).
  rewrite Hk, Hv, He. by vm_compute.
Defined.

Lemma lazy_get_has_witness :
  m_lazyEviction lazy_two = true ∧
  store_get "a" (m_store lazy_two) = Some (mkEntry 1 50 None) ∧
  (50 ≤ clock lazy_two)%Z ∧
  ∃ s',
    get "a" lazy_two = (None, s') ∧ has "a" lazy_two = (false, s') ∧
    notified s' = [("a", 1%Z)] ∧ get "a" s' = (None, s').
Proof.
  split; [reflexivity|]. split; [reflexivity|]. split; [by vm_compute|].
  destruct (lazy_get_has "a" lazy_two eq_refl) as (_ & _ & Hstale).
  destruct (Hstale (mkEntry 1 50 None) eq_refl)
    as (s' & Hget & Hhas & _ & _ & Hcalls & Hagain & _); [by vm_compute|].
  exists s'. split; [exact Hget|]. split; [exact Hhas|]. split; [|exact Hagain].
  unfold notified. rewrite Hcalls. reflexivity.
Defined.

Lemma size_counts_witness :
  wf lazy_two ∧
  size lazy_two = (1%nat, sweep lazy_two) ∧
  m_store (sweep lazy_two) = [("b", mkEntry 2 200 None)] ∧
  notified (sweep lazy_two) = [("a", 1%Z)].
Proof.
  assert (wf lazy_two) as Hwf by apply wf_run, wf_fresh.
  split; [exact Hwf|]. exact (size_counts lazy_two Hwf).
Defined.

Lemma set_then_get_witness :
  (0 < 100)%Z ∧
  get "a" (set "a" 1%Z None (fresh true true 100)) =
    (Some 1%Z, set "a" 1%Z None (fresh true true 100)) ∧
  has "a" (set "a" 1%Z None (fresh true true 100)) =
    (true, set "a" 1%Z None (fresh true true 100)).
Proof.
  split; [reflexivity|].
  apply (set_then_get "a" 1%Z None (fresh true true 100)). reflexivity.
Defined.

Lemma set_accepts_any_ttl_witness :
  m_lazyEviction (fresh true true 100) = true ∧ (-5 ≤ 0)%Z ∧
  ∃ s',
    get "a" (wait 30 (set "a" 1%Z (Some (-5)%Z) (fresh true true 100))) =
      (None, s') ∧
    has "a" (wait 30 (set "a" 1%Z (Some (-5)%Z) (fresh true true 100))) =
      (false, s') ∧
    store_get "a" (m_store s') = None ∧
    notified s' = [("a", 1%Z)].
Proof.
  split; [reflexivity|]. split; [by vm_compute|].
  destruct (set_accepts_any_ttl "a" 1%Z (-5)%Z (fresh true true 100))
    as (_ & _ & Hnext).
  apply (Hnext eq_refl); by vm_compute.
Defined.

Lemma clear_spec_witness :
  m_store (clear eager_two) = [] ∧
  pending 1%nat eager_two = true ∧ pending 1%nat (clear eager_two) = false ∧
  calls (run [OpTick 150; OpHas "a"; OpSize] (clear eager_two)) = [].
Proof.
  destruct (clear_spec eager_two) as (Hst & _ & _ & Hcancel & Hquiet & _).
  split; [exact Hst|]. split; [reflexivity|]. split.
  - apply (Hcancel "a" (mkEntry 1 100 (Some 1%nat))); [|reflexivity].
    apply list_elem_of_here.
  - apply (Hquiet [OpTick 150; OpHas "a"; OpSize]). reflexivity.
Defined.

Lemma delete_spec_witness :
  (delete "a" eager_two).1 = true ∧
  pending 1%nat (delete "a" eager_two).2 = false ∧
  calls_for "a" (run [OpTick 150; OpHas "a"] (delete "a" eager_two).2) = [].
Proof.
  destruct (delete_spec "a" eager_two) as (Hret & _ & _ & Hcancel & _ & Hquiet).
  split; [apply Hret; by eexists|]. split.
  - apply (Hcancel (mkEntry 1 100 (Some 1%nat))); reflexivity.
  - apply (Hquiet [OpTick 150; OpHas "a"]). reflexivity.
Defined.



Lemma lazy_removal_precedes_onExpire_witness :
  m_lazyEviction lazy_two = true ∧
  notified (step OpSize lazy_two) = [("a", 1%Z)] ∧
  ∃ new,
    calls (step OpSize lazy_two) = calls lazy_two ++ new ∧
    Forall (λ c,
      store_get (call_key c) (call_seen c) = None ∧
      ∀ s_cb : State string Z,
        m_store s_cb = call_seen c →
        has (call_key c) s_cb = (false, s_cb) ∧
        (size s_cb).1 = length (m_store (size s_cb).2) ∧
        call_key c ∉ store_keys (m_store (size s_cb).2)) new.
Proof.
  split; [reflexivity|]. split; [reflexivity|].
  exact (lazy_removal_precedes_onExpire OpSize lazy_two eq_refl eq_refl).
Defined.

(** ** The further properties on the example scripts *)

Lemma consistent_fresh lazy notifying ttl :
  (0 < ttl)%Z → consistent (fresh lazy notifying ttl).
Proof.
  intros Hpos.
  apply (consistent_new (mkOptions ttl (Some lazy) notifying) 0).
  by apply fresh_new.
Qed.

Lemma eager_reads_change_nothing_witness :
  m_lazyEviction eager_two = false ∧ is_access (K:=string) (V:=Z) OpKeys = true ∧
  step OpKeys eager_two = eager_two.
Proof.
  split; [reflexivity|]. split; [reflexivity|].
  apply (eager_reads_change_nothing OpKeys eager_two); reflexivity.
Defined.

Lemma delete_missing_witness :
  store_get "z" (m_store eager_two) = None ∧
  delete "z" eager_two = (false, eager_two).
Proof.
  split; [reflexivity|].
  destruct (delete_missing "z" eager_two) as [Hmiss _]. apply Hmiss. reflexivity.
Defined.

Lemma set_other_key_witness :
  "b" ≠ "a" ∧
  (get "b" (set "a" 7 None eager_two)).1 = (get "b" eager_two).1 ∧
  (has "b" (set "a" 7 None eager_two)).1 = (has "b" eager_two).1.
Proof.
  assert ("b" ≠ "a") as Hne by done.
  split; [exact Hne|]. exact (set_other_key "a" "b" 7 None eager_two Hne).
Defined.

Lemma lazy_ttl_window_witness :
  m_lazyEviction (fresh true true 100) = true ∧
  (clock (fresh true true 100) ≤ 70) ∧
  (has "a" (wait 70 (set "a" 1 (Some 50) (fresh true true 100)))).1 = false ∧
  (get "a" (wait 70 (set "a" 1 (Some 50) (fresh true true 100)))).1 = None.
Proof.
  assert (clock (fresh true true 100) ≤ 70) as Hle by by vm_compute.
  split; [reflexivity|]. split; [exact Hle|].
  exact (lazy_ttl_window "a" 1 (Some 50) 70 (fresh true true 100) eq_refl Hle).
Defined.

Lemma forEach_visits_witness :
  wf lazy_two ∧
  (forEach lazy_two).1 = [(2, "b")] ∧
  (forEach lazy_two).2 = (entries lazy_two).2.
Proof.
  assert (wf lazy_two) as Hwf by apply wf_run, wf_fresh.
  split; [exact Hwf|]. exact (forEach_visits lazy_two Hwf).
Defined.

Lemma size_is_length_keys_witness :
  wf lazy_two ∧
  (size lazy_two).1 = length (keys lazy_two).1 ∧
  (size lazy_two).2 = (keys lazy_two).2.
Proof.
  assert (wf lazy_two) as Hwf by apply wf_run, wf_fresh.
  split; [exact Hwf|]. exact (size_is_length_keys lazy_two Hwf).
Defined.

Lemma sweep_once_witness :
  wf lazy_two ∧
  size (size lazy_two).2 = (1%nat, (size lazy_two).2) ∧
  keys (keys lazy_two).2 = (["b"], (keys lazy_two).2).
Proof.
  assert (wf lazy_two) as Hwf by apply wf_run, wf_fresh.
  split; [exact Hwf|]. exact (sweep_once lazy_two Hwf).
Defined.

Lemma constructed_map_consistent_witness :
  new (mkOptions 100 (Some false) true) 0 = Returned (fresh false true 100) ∧
  wf eager_two ∧ timers_ok eager_two ∧ mode_ok eager_two ∧
  0 < m_defaultTtlMs eager_two.
Proof.
  split; [reflexivity|].
  apply (constructed_map_consistent (mkOptions 100 (Some false) true) 0
           [OpSet "a" 1 None; OpSet "b" 2 None] (fresh false true 100)).
  reflexivity.
Defined.

Lemma tick_spares_witness :
  Forall (λ tm, target tm = "a" → 50 < due tm) (timers eager_two) ∧
  store_get "a" (m_store (tick 50 eager_two)) =
    Some (mkEntry 1 100 (Some 1%nat)) ∧
  calls_for "a" (tick 50 eager_two) = [] ∧
  (get "a" (tick 50 eager_two)).1 = Some 1.
Proof.
  assert (Forall (λ tm, target tm = "a" → 50 < due tm) (timers eager_two))
    as Hall.
  { change (timers eager_two) with [mkTimer 1 100 "a"; mkTimer 2 100 "b"].
    repeat (apply Forall_cons; split; [intros _; by vm_compute|]).
    apply Forall_nil_2. }
  split; [exact Hall|].
  destruct (tick_spares "a" 50 eager_two Hall) as (Hst & Hc & Hget).
  split; [exact Hst|]. split; [exact Hc|].
  destruct (Hget eq_refl) as [Hg _]. exact Hg.
Defined.

Lemma tick_runs_due_timer_witness :
  NoDup (handle <$> timers eager_two) ∧
  mkTimer 1 100 "a" ∈ timers eager_two ∧
  has "a" (tick 150 eager_two) = (false, tick 150 eager_two) ∧
  get "a" (tick 150 eager_two) = (None, tick 150 eager_two) ∧
  ∃ seen, calls_for "a" (tick 150 eager_two) = [mkCall "a" 1 seen].
Proof.
  assert (NoDup (handle <$> timers eager_two)) as Hnd.
  { apply (consistent_run [OpSet "a" 1 None; OpSet "b" 2 None]).
    by apply consistent_fresh. }
  assert (mkTimer 1 100 "a" ∈ timers eager_two) as Hin
    by apply list_elem_of_here.
  split; [exact Hnd|]. split; [exact Hin|].
  destruct (tick_runs_due_timer (mkTimer 1 100 "a") 150 eager_two Hnd Hin)
    as (Hhas & Hget & Hcalls); [by vm_compute|].
  split; [exact Hhas|]. split; [exact Hget|].
  exact (Hcalls (mkEntry 1 100 (Some 1%nat)) eq_refl).
Defined.

Lemma eager_entry_expires_witness :
  timers_ok eager_two ∧ m_lazyEviction eager_two = false ∧
  has "c" (tick 150 (set "c" 3 (Some 20) eager_two)) =
    (false, tick 150 (set "c" 3 (Some 20) eager_two)) ∧
  get "c" (tick 150 (set "c" 3 (Some 20) eager_two)) =
    (None, tick 150 (set "c" 3 (Some 20) eager_two)) ∧
  ∃ seen,
    calls_for "c" (tick 150 (set "c" 3 (Some 20) eager_two)) =
      [mkCall "c" 3 seen].
Proof.
  assert (timers_ok eager_two) as Hok.
  { apply (consistent_run [OpSet "a" 1 None; OpSet "b" 2 None]).
    by apply consistent_fresh. }
  split; [exact Hok|]. split; [reflexivity|].
  apply (eager_entry_expires "c" 3 (Some 20) 150 eager_two Hok eq_refl).
  by vm_compute.
Defined.

Lemma eager_entry_survives_witness :
  m_lazyEviction eager_two = false ∧ (1 ≤ 200 ≤ 2147483647) ∧
  get "c" (tick 50 (set "c" 3 (Some 200) eager_two)) =
    (Some 3, tick 50 (set "c" 3 (Some 200) eager_two)) ∧
  has "c" (tick 50 (set "c" 3 (Some 200) eager_two)) =
    (true, tick 50 (set "c" 3 (Some 200) eager_two)) ∧
  calls_for "c" (tick 50 (set "c" 3 (Some 200) eager_two)) = [].
Proof.
  split; [reflexivity|]. split; [by vm_compute|].
  apply (eager_entry_survives "c" 3 (Some 200) 50 eager_two eq_refl).
  - by vm_compute.
  - change (timers eager_two) with [mkTimer 1 100 "a"; mkTimer 2 100 "b"].
    repeat (apply Forall_cons; split; [intros _; by vm_compute|]).
    apply Forall_nil_2.
  - by vm_compute.
Defined.

Lemma lazy_time_alone_witness :
  new (mkOptions 100 (Some true) true) 0 = Returned (fresh true true 100) ∧
  m_lazyEviction (fresh true true 100) = true ∧
  run [OpSet "a" 1 (Some 50); OpWait 70; OpGet "a"] (fresh true true 100) =
    run [OpSet "a" 1 (Some 50); OpTick 70; OpGet "a"] (fresh true true 100) ∧
  timers
    (run [OpSet "a" 1 (Some 50); OpTick 70; OpGet "a"] (fresh true true 100)) =
    [].
Proof.
  split; [reflexivity|]. split; [reflexivity|].
  exact (lazy_time_alone (mkOptions 100 (Some true) true) 0
           [OpSet "a" 1 (Some 50); OpTick 70; OpGet "a"] (fresh true true 100)
           eq_refl eq_refl).
Defined.

End ExpiringMap.
